(** * PB12 encoder (src/boot/util/pb12.c): shallow embedding and properties

    The C program reads at most 0x4000 bytes, drops the trailing zero bytes and
    runs one encoding loop over the rest.  Machine integers are modelled as [Z]
    with the wrap-around of [unsigned] written out, [uint8_t] values as [Z] in
    [0, 256), the input file as a [list byte].  The two [assert]s and the write
    into the fixed [literals] array are explicit outcomes of the model. *)

From Stdlib Require Import ZArith List Lia Bool.
From Stdlib.Strings Require Import Byte.
Import ListNotations.
Local Open Scope Z_scope.

(** ** Machine integers *)

Module Mach.

(** [unsigned] is 32 bits wide. *)
Definition wrap32 (z : Z) : Z := z mod 2 ^ 32.

(** Conversion to [uint8_t]. *)
Definition to_u8 (z : Z) : Z := z mod 256.

(** Value of a byte of the file once loaded into a [uint8_t]. *)
Definition u8 (b : byte) : Z := Z.of_N (Byte.to_N b).

(** [(unsigned)-1], the "not set" value of a predictor slot. *)
Definition NOT_SET : Z := wrap32 (-1).

(** [x <<= k] on an [unsigned]. *)
Definition shl32 (x k : Z) : Z := wrap32 (Z.shiftl x k).

End Mach.
Import Mach.

(** ** The encoder *)

Module PB12.

(** [opts]: the four candidate bytes derived from [byte]; every store into
    [options] converts to [uint8_t]. *)
Definition opts (byte : Z) : list Z :=
  [ to_u8 (Z.lor byte (Z.land (Z.shiftl byte 1) 255));
    to_u8 (Z.land byte (Z.shiftl byte 1));
    to_u8 (Z.lor byte (Z.land (Z.shiftr byte 1) 255));
    to_u8 (Z.land byte (Z.shiftr byte 1)) ].

(** The [for] loop over [options]: index of the first candidate equal to
    [byte], counting from [i]. *)
Fixpoint find_option (options : list Z) (byte : Z) (i : Z) : option Z :=
  match options with
  | [] => None
  | o :: rest => if o =? byte then Some i else find_option rest byte (i + 1)
  end.

(** Size of the [literals] array. *)
Definition LITERALS_CAP : nat := 8.

(** Size of the [source] buffer. *)
Definition SOURCE_CAP : nat := Z.to_nat 0x4000.

(** The local variables of [main] that the loop updates, and the bytes written
    to [output] so far. *)
Record enc : Type := mkEnc {
  pos : nat;
  literals : list Z;
  literals_size : nat;
  bits : Z;
  control : Z;
  prev0 : Z;
  prev1 : Z;
  output : list Z
}.

(** Store [v] at index [i] of an array. *)
Fixpoint store (l : list Z) (i : nat) (v : Z) : list Z :=
  match l, i with
  | [], _ => []
  | _ :: t, O => v :: t
  | h :: t, S j => h :: store t j v
  end.

(** How a run of [main] ends. *)
Inductive outcome : Type :=
| Finished (out : list Z)          (* return 0; [out] is the whole output file *)
| SizeAssert                       (* assert(size <= 0x4000) failed *)
| ControlAssert (out : list Z)     (* assert(outctl != 1) failed after writing [out] *)
| LiteralsOverflow (out : list Z)  (* literals[literals_size] outside the array *)
| OutOfFuel.

(** Result of one pass through the body of [while (true)]. *)
Inductive iter : Type :=
| Break
| Continue (st : enc)
| Stop (o : outcome).

(** Trailing-zero removal: [while (size && source[size - 1] == 0) size--]. *)
Fixpoint trim_size (source : list byte) (size : nat) : nat :=
  match size with
  | O => O
  | S n => if u8 (nth n source x00) =? 0 then trim_size source n else size
  end.

(** The bytes the encoding loop sees. *)
Definition trim (source : list byte) : list byte :=
  firstn (trim_size source (length source)) source.

(** Lines 86-122: the classifier.  [None] is a write past [literals]. *)
Definition classify (byte : Z) (st : enc) : option enc :=
  if (byte =? prev0 st) || (byte =? prev1 st) then
    let c := shl32 (Z.lor (shl32 (control st) 1) 1) 1 in
    let c := if byte =? prev1 st then Z.lor c 1 else c in
    Some (mkEnc (pos st) (literals st) (literals_size st)
                (wrap32 (bits st + 2)) c (prev0 st) (prev1 st) (output st))
  else
    let b := wrap32 (bits st + 2) in
    let c := shl32 (control st) 2 in
    match find_option (opts (to_u8 (prev1 st))) byte 0 with
    | Some i =>
        Some (mkEnc (pos st) (literals st) (literals_size st)
                    (wrap32 (b + 2)) (Z.lor (shl32 (Z.lor c 1) 2) i)
                    (prev0 st) (prev1 st) (output st))
    | None =>
        if (literals_size st <? LITERALS_CAP)%nat then
          Some (mkEnc (pos st) (store (literals st) (literals_size st) byte)
                      (S (literals_size st)) b c (prev0 st) (prev1 st) (output st))
        else None
    end.

(** Lines 124-125. *)
Definition shift_prev (byte : Z) (st : enc) : enc :=
  mkEnc (pos st) (literals st) (literals_size st) (bits st) (control st)
        (prev1 st) byte (output st).

(** Lines 126-135: the flush.  [inr out] is the failed assertion. *)
Definition flush (st : enc) : enc + list Z :=
  if 8 <=? bits st then
    let outctl := to_u8 (Z.shiftr (control st) (bits st - 8)) in
    if outctl =? 1 then inr (output st)
    else
      let b := wrap32 (bits st - 8) in
      inl (mkEnc (pos st) (literals st) 0 b
                 (Z.land (control st) (wrap32 (Z.shiftl 1 b - 1)))
                 (prev0 st) (prev1 st)
                 (output st ++ [outctl] ++ firstn (literals_size st) (literals st)))
  else inl st.

(** Lines 75-84: the byte of this iteration, real or the implicit zero. *)
Definition next_byte (source : list byte) (size : nat) (st : enc) : option (Z * enc) :=
  if (pos st =? size)%nat then
    if bits st =? 0 then None else Some (0, st)
  else
    Some (u8 (nth (pos st) source x00),
          mkEnc (S (pos st)) (literals st) (literals_size st) (bits st)
                (control st) (prev0 st) (prev1 st) (output st)).

(** One iteration of [while (true)]. *)
Definition body (source : list byte) (size : nat) (st : enc) : iter :=
  match next_byte source size st with
  | None => Break
  | Some (byte, st1) =>
      match classify byte st1 with
      | None => Stop (LiteralsOverflow (output st1))
      | Some st2 =>
          match flush (shift_prev byte st2) with
          | inl st3 => Continue st3
          | inr out => Stop (ControlAssert out)
          end
      end
  end.

(** The loop, then lines 137-138: the end byte. *)
Fixpoint loop (fuel : nat) (source : list byte) (size : nat) (st : enc) : outcome :=
  match fuel with
  | O => OutOfFuel
  | S f =>
      match body source size st with
      | Break => Finished (output st ++ [1])
      | Continue st' => loop f source size st'
      | Stop o => o
      end
  end.

(** Lines 67-71: the state on entry to the loop.  The array starts with
    unspecified contents; only the first [literals_size] cells are ever read. *)
Definition init : enc :=
  mkEnc 0 (repeat 0 LITERALS_CAP) 0 0 0 NOT_SET NOT_SET [].

(** Iterations granted to the loop over [size] bytes: one per byte, at most
    four implicit zeros, and the one that breaks. *)
Definition fuel_for (size : nat) : nat := (size + 5)%nat.

(** The encoding pass over an already loaded buffer. *)
Definition encode (source : list byte) (size : nat) : outcome :=
  loop (fuel_for size) source size init.

(** [fread(source, 1, sizeof(source), input)]: at most [SOURCE_CAP] bytes. *)
Definition fread (file : list byte) : list byte := firstn SOURCE_CAP file.

(** [main] from line 54 on, on the contents of the input file. *)
Definition main (file : list byte) : outcome :=
  let source := fread file in
  let size := length source in
  if (size <=? SOURCE_CAP)%nat then
    encode source (trim_size source size)
  else SizeAssert.

End PB12.
Import PB12.

(** ** Invariants of the loop and shape of the output *)

Module Props.

(** State between two iterations: fewer than eight pending control bits, the
    register holds nothing above them, and each queued literal accounts for two
    of them. *)
Record inv (st : enc) : Prop := mkInv {
  inv_bits : bits st = 0 \/ bits st = 2 \/ bits st = 4 \/ bits st = 6;
  inv_control : 0 <= control st < 2 ^ bits st;
  inv_queue : 2 * Z.of_nat (literals_size st) <= bits st;
  inv_array : length (literals st) = LITERALS_CAP
}.

(** State after the classifier and before the flush. *)
Record mid (st : enc) : Prop := mkMid {
  mid_bits : bits st = 2 \/ bits st = 4 \/ bits st = 6 \/ bits st = 8 \/ bits st = 10;
  mid_control : 0 <= control st < 2 ^ bits st;
  mid_queue : (literals_size st <= 4)%nat;
  mid_pending : bits st < 8 -> 2 * Z.of_nat (literals_size st) <= bits st;
  mid_array : length (literals st) = LITERALS_CAP
}.

(** A record of the output: a control byte and the literals flushed with it. *)
Definition record_bytes (r : Z * list Z) : list Z := fst r :: snd r.

Definition frame (recs : list (Z * list Z)) : list Z := flat_map record_bytes recs.

Definition record_ok (r : Z * list Z) : Prop :=
  fst r <> 1 /\ 0 <= fst r < 256 /\ (length (snd r) <= 4)%nat.

(** The bytes written so far are a sequence of well-formed records. *)
Definition framed (out : list Z) : Prop :=
  exists recs, out = frame recs /\ Forall record_ok recs.

(** States at the head of the loop during the pass over [source[0..size)]. *)
Inductive reachable (source : list byte) (size : nat) : enc -> Prop :=
| reach_init : reachable source size init
| reach_step st st' :
    reachable source size st ->
    body source size st = Continue st' ->
    reachable source size st'.

(** A sequence the trimmer leaves alone. *)
Definition trimmed (s : list byte) : Prop := s = [] \/ last s x00 <> x00.

(** The run ended in one of the two assertions. *)
Definition aborted (o : outcome) : bool :=
  match o with
  | SizeAssert | ControlAssert _ => true
  | _ => false
  end.

(** An input file one byte longer than the buffer. *)
Definition oversized : list byte := x41 :: repeat x00 SOURCE_CAP.

End Props.
Import Props.

(** ** The records that the flushes write *)

Module Trace.

(** Lines 128-131: what the flush of [st] writes when it writes, the control
    byte [outctl] and the queued literals. *)
Definition flushed (st : enc) : list (Z * list Z) :=
  if 8 <=? bits st then
    [(to_u8 (Z.shiftr (control st) (bits st - 8)),
      firstn (literals_size st) (literals st))]
  else [].

(** The record written during the iteration that starts in [st]: the one of
    the flush after the classifier, if the flush fires there. *)
Definition written_by (source : list byte) (size : nat) (st : enc)
    : list (Z * list Z) :=
  match next_byte source size st with
  | None => []
  | Some (byte, st1) =>
      match classify byte st1 with
      | None => []
      | Some st2 => flushed (shift_prev byte st2)
      end
  end.

(** The records written by the successive flushes of the loop, in order. *)
Fixpoint flushes (fuel : nat) (source : list byte) (size : nat) (st : enc)
    : list (Z * list Z) :=
  match fuel with
  | O => []
  | S f =>
      match body source size st with
      | Continue st' => written_by source size st ++ flushes f source size st'
      | _ => []
      end
  end.

(** The records written by the flushes of a run of [main]. *)
Definition main_flushes (file : list byte) : list (Z * list Z) :=
  let source := fread file in
  let size := trim_size source (length source) in
  flushes (fuel_for size) source size init.

End Trace.
Import Trace.

(** ** Writing to the output file *)

Module IO.

(** An output stream: the bytes it has taken so far and, for each coming call
    of [fwrite], how many items that call will accept at most.  A call after
    the end of [accepts] writes nothing. *)
Record stream : Type := mkStream {
  taken : list Z;
  accepts : list nat
}.

(** [fwrite(p, 1, n, stream)] where [data] are the [n] bytes at [p]: the
    number of items written, and the stream after the call. *)
Definition fwrite (data : list Z) (s : stream) : nat * stream :=
  match accepts s with
  | [] => (0%nat, s)
  | k :: rest =>
      let r := Nat.min k (length data) in
      (r, mkStream (taken s ++ firstn r data) rest)
  end.

(** How [write_all] ends: it returns, or it calls [exit(EXIT_FAILURE)]. *)
Inductive wrote : Type :=
| Returned (s : stream)
| ExitFailure (s : stream)
| NoFuel.

(** Lines 18-28: the loop of [write_all], with [written] as loop variable. *)
Fixpoint write_all_loop (fuel : nat) (buf : list Z) (count written : nat)
    (s : stream) : wrote :=
  match fuel with
  | O => NoFuel
  | S f =>
      if (written <? count)%nat then
        let (result, s') := fwrite (skipn written (firstn count buf)) s in
        if (result <=? 0)%nat then ExitFailure s'
        else write_all_loop f buf count (written + result) s'
      else Returned s
  end.

(** [write_all(stream, buf, count)]; every pass that continues writes at least
    one byte, so [count] passes and the one that leaves are enough. *)
Definition write_all (s : stream) (buf : list Z) (count : nat) : wrote :=
  write_all_loop (S count) buf count 0 s.

End IO.
Import IO.

(** ** Measures over the state of the encoder *)

Module Measure.

(** Output bits accounted for: eight per byte written, eight per queued
    literal, and the pending control bits. *)
Definition cost (st : enc) : Z :=
  8 * Z.of_nat (length (output st)) + 8 * Z.of_nat (literals_size st) + bits st.

(** The byte the loop processes at index [i]: [source[i]] below [size], the
    implicit zero from there on. *)
Definition padded (source : list byte) (size : nat) (i : nat) : Z :=
  if (i <? size)%nat then u8 (nth i source x00) else 0.

(** The queue: the cells of [literals] that the next flush writes. *)
Definition queue (st : enc) : list Z := firstn (literals_size st) (literals st).

(** What the classifier decides for a byte: a repeat (of [prev1] when
    [hit1]), a predicted byte with its index, or a literal. *)
Inductive event : Type :=
| Rep (hit1 : bool)
| Pred (i : Z)
| Lit.

(** The decision of lines 86-118 for [byte] in state [st]. *)
Definition event_of (byte : Z) (st : enc) : event :=
  if (byte =? prev0 st) || (byte =? prev1 st) then Rep (byte =? prev1 st)
  else match find_option (opts (to_u8 (prev1 st))) byte 0 with
       | Some i => Pred i
       | None => Lit
       end.

(** Number of control bits of an event, and their value. *)
Definition code_bits (e : event) : Z :=
  match e with Pred _ => 4 | _ => 2 end.

Definition code (e : event) : Z :=
  match e with
  | Rep hit1 => if hit1 then 3 else 2
  | Pred i => 4 + i
  | Lit => 0
  end.

(** The bytes an event adds to the queue. *)
Definition lit_of (e : event) (byte : Z) : list Z :=
  match e with Lit => [byte] | _ => [] end.

(** The state with another read position. *)
Definition set_pos (p : nat) (st : enc) : enc :=
  mkEnc p (literals st) (literals_size st) (bits st) (control st)
        (prev0 st) (prev1 st) (output st).

(** Lines 86-135 of one iteration: everything after the byte is chosen. *)
Definition advance (byte : Z) (st : enc) : iter :=
  match classify byte st with
  | None => Stop (LiteralsOverflow (output st))
  | Some st2 =>
      match flush (shift_prev byte st2) with
      | inl st3 => Continue st3
      | inr out => Stop (ControlAssert out)
      end
  end.

Definition map_iter (f : enc -> enc) (r : iter) : iter :=
  match r with
  | Break => Break
  | Continue st => Continue (f st)
  | Stop o => Stop o
  end.

End Measure.
Import Measure.

(** ** Arithmetic of the control register *)

Section ControlBits.

Lemma land_low_zero (x i k : Z) :
  0 <= k -> 0 <= i < 2 ^ k -> x mod 2 ^ k = 0 -> Z.land x i = 0.
Proof.
  intros Hk Hi Hx.
  rewrite <- (Z.mod_small i (2 ^ k)) by lia.
  rewrite <- (Z.land_ones i k) by lia.
  rewrite (Z.land_comm i), Z.land_assoc, Z.land_ones by lia.
  rewrite Hx. apply Z.land_0_l.
Qed.

Lemma lor_low (x i k : Z) :
  0 <= k -> 0 <= i < 2 ^ k -> x mod 2 ^ k = 0 -> Z.lor x i = x + i.
Proof.
  intros Hk Hi Hx.
  pose proof (Z.add_lor_land x i) as H.
  rewrite (land_low_zero x i k) in H by assumption. lia.
Qed.

Lemma wrap32_mul_pow2_low (x k : Z) :
  0 <= k <= 32 -> wrap32 (x * 2 ^ k) mod 2 ^ k = 0.
Proof.
  intros Hk. unfold wrap32.
  replace (2 ^ 32) with (2 ^ k * 2 ^ (32 - k))
    by (rewrite <- Z.pow_add_r by lia; f_equal; lia).
  assert (0 < 2 ^ k) by (apply Z.pow_pos_nonneg; lia).
  assert (0 < 2 ^ (32 - k)) by (apply Z.pow_pos_nonneg; lia).
  rewrite Z.rem_mul_r by lia.
  rewrite (Z.mod_mul x (2 ^ k)) by lia.
  rewrite Z.add_0_l, (Z.mul_comm (2 ^ k)).
  apply Z.mod_mul; lia.
Qed.

Lemma shl32_mul (x k : Z) : 0 <= k -> shl32 x k = wrap32 (x * 2 ^ k).
Proof. intros; unfold shl32; now rewrite Z.shiftl_mul_pow2. Qed.

Lemma wrap32_range (z : Z) : 0 <= wrap32 z < 2 ^ 32.
Proof. apply Z.mod_pos_bound. reflexivity. Qed.

Lemma wrap32_small (z : Z) : 0 <= z < 2 ^ 32 -> wrap32 z = z.
Proof. apply Z.mod_small. Qed.

Lemma wrap32_scale (a b k d : Z) :
  wrap32 ((wrap32 a + b) * k + d) = wrap32 ((a + b) * k + d).
Proof.
  unfold wrap32.
  rewrite <- (Zplus_mod_idemp_l ((a mod 2 ^ 32 + b) * k)).
  rewrite <- (Zmult_mod_idemp_l (a mod 2 ^ 32 + b)).
  rewrite (Zplus_mod_idemp_l a b).
  rewrite Zmult_mod_idemp_l, Zplus_mod_idemp_l.
  reflexivity.
Qed.

(** [control <<= k; control |= i] with [i] below [2 ^ k]. *)
Lemma shl32_lor (x k i : Z) :
  0 <= k <= 32 -> 0 <= i < 2 ^ k ->
  Z.lor (shl32 x k) i = wrap32 (x * 2 ^ k) + i.
Proof.
  intros Hk Hi. rewrite shl32_mul by lia.
  apply (lor_low _ _ k); try lia. now apply wrap32_mul_pow2_low.
Qed.

(** Adding [i < 2 ^ k] to a wrapped multiple of [2 ^ k] does not wrap. *)
Lemma wrap32_low_add (x k i : Z) :
  0 <= k <= 32 -> 0 <= i < 2 ^ k ->
  wrap32 (x * 2 ^ k) + i = wrap32 (x * 2 ^ k + i).
Proof.
  intros Hk Hi.
  pose proof (wrap32_mul_pow2_low x k Hk) as E.
  pose proof (wrap32_range (x * 2 ^ k)) as B.
  assert (0 < 2 ^ k) as Pk by (apply Z.pow_pos_nonneg; lia).
  assert (2 ^ 32 mod 2 ^ k = 0) as D.
  { replace (2 ^ 32) with (2 ^ (32 - k) * 2 ^ k)
      by (rewrite <- Z.pow_add_r by lia; f_equal; lia).
    apply Z.mod_mul; lia. }
  apply Z.mod_divide in E; [|lia]. apply Z.mod_divide in D; [|lia].
  destruct E as [q Eq], D as [m Em].
  symmetry. unfold wrap32 in *.
  rewrite <- Zplus_mod_idemp_l. apply Z.mod_small.
  rewrite Eq in *. rewrite Em in *.
  generalize dependent (2 ^ k). intros P Hi Pk Eq B Em.
  assert (q < m) by nia. nia.
Qed.

(** The two control bits of a repeat: [1 0] or [1 1]. *)
Lemma repeat_code (c : Z) (hit1 : bool) :
  (let c1 := shl32 (Z.lor (shl32 c 1) 1) 1 in
   if hit1 then Z.lor c1 1 else c1)
  = wrap32 (4 * c + (if hit1 then 3 else 2)).
Proof.
  cbv zeta.
  rewrite (shl32_lor c 1 1) by (cbn; lia).
  destruct hit1.
  - rewrite (shl32_lor _ 1 1) by (cbn; lia).
    rewrite wrap32_low_add by (cbn; lia).
    change (2 ^ 1) with 2.
    rewrite wrap32_scale. f_equal. lia.
  - rewrite shl32_mul by lia. change (2 ^ 1) with 2.
    rewrite <- (Z.add_0_r ((wrap32 (c * 2) + 1) * 2)).
    rewrite wrap32_scale. f_equal. lia.
Qed.

(** The two control bits of a literal: [0 0]. *)
Lemma literal_code (c : Z) : shl32 c 2 = wrap32 (4 * c).
Proof. rewrite shl32_mul by lia. f_equal. lia. Qed.

(** The four control bits of a predicted byte: [0 1 i1 i0]. *)
Lemma predicted_code (c i : Z) :
  0 <= i < 4 ->
  Z.lor (shl32 (Z.lor (shl32 c 2) 1) 2) i = wrap32 (16 * c + 4 + i).
Proof.
  intros Hi.
  rewrite (shl32_lor c 2 1) by (cbn; lia).
  rewrite (shl32_lor _ 2 i) by (cbn; lia).
  rewrite wrap32_low_add by (cbn; lia).
  change (2 ^ 2) with 4.
  rewrite wrap32_scale. f_equal. lia.
Qed.

End ControlBits.

(** ** The classifier *)

Section Classifier.

Lemma find_option_range (options : list Z) (byte i j : Z) :
  find_option options byte i = Some j ->
  i <= j < i + Z.of_nat (length options).
Proof.
  revert i. induction options as [|o rest IH]; intros i H; simpl in H.
  - discriminate.
  - destruct (o =? byte).
    + injection H as <-. simpl length. lia.
    + apply IH in H. simpl length. lia.
Qed.

Lemma opts_length (b : Z) : length (opts b) = 4%nat.
Proof. reflexivity. Qed.

Lemma to_u8_small (z : Z) : 0 <= z < 256 -> to_u8 z = z.
Proof. apply Z.mod_small. Qed.

(** C6: a byte equal to a predictor slot costs two control bits and queues
    nothing; the bits are [1 1] whenever the byte equals [prev1] (also when it
    equals [prev0] as well) and [1 0] when it equals [prev0] only. *)
Theorem repeat_code_selection (byte : Z) (st : enc) :
  byte = prev0 st \/ byte = prev1 st ->
  exists st',
    classify byte st = Some st' /\
    bits st' = wrap32 (bits st + 2) /\
    literals_size st' = literals_size st /\
    literals st' = literals st /\
    (byte = prev1 st -> control st' = wrap32 (4 * control st + 3)) /\
    (byte <> prev1 st -> control st' = wrap32 (4 * control st + 2)).
Proof.
  intros H. unfold classify.
  assert ((byte =? prev0 st) || (byte =? prev1 st) = true) as ->.
  { apply orb_true_iff. rewrite !Z.eqb_eq. exact H. }
  eexists. split; [reflexivity|]. cbn [bits literals_size literals control].
  repeat split; intros E.
  - apply Z.eqb_eq in E. rewrite E. apply (repeat_code (control st) true).
  - apply Z.eqb_neq in E. rewrite E. apply (repeat_code (control st) false).
Qed.

(** C7: a byte that differs from both slots and equals the first candidate
    [prev1 | ((prev1 << 1) & 0xFF)] gets the four bits [0 1 0 0] and queues no
    literal.  A slot holds a byte or the "not set" value. *)
Theorem predicted_index0 (byte : Z) (st : enc) :
  0 <= byte < 256 ->
  prev1 st = NOT_SET \/ 0 <= prev1 st < 256 ->
  byte <> prev0 st -> byte <> prev1 st ->
  byte = Z.lor (prev1 st) (Z.land (Z.shiftl (prev1 st) 1) 255) ->
  exists st',
    classify byte st = Some st' /\
    find_option (opts (to_u8 (prev1 st))) byte 0 = Some 0 /\
    control st' = wrap32 (16 * control st + 4 + 0) /\
    bits st' = wrap32 (bits st + 4) /\
    literals_size st' = literals_size st /\
    literals st' = literals st.
Proof.
  intros Hb Hp N0 N1 E.
  destruct Hp as [Hp|Hp].
  { rewrite Hp in E. vm_compute in E. subst byte. lia. }
  assert (find_option (opts (to_u8 (prev1 st))) byte 0 = Some 0) as F.
  { rewrite (to_u8_small (prev1 st)) by assumption.
    unfold opts, find_option. rewrite <- E, (to_u8_small byte) by assumption.
    now rewrite Z.eqb_refl. }
  unfold classify.
  apply Z.eqb_neq in N0, N1. rewrite N0, N1, F. cbn [orb].
  eexists. split; [reflexivity|]. split; [reflexivity|].
  cbn [bits literals_size literals control].
  split; [apply predicted_code; lia|].
  split; [|split; reflexivity].
  unfold wrap32. rewrite Zplus_mod_idemp_l. f_equal. lia.
Qed.

End Classifier.

(** ** One iteration preserves the invariant *)

(** Evaluate sums, differences and powers of numerals. *)
Ltac numerals :=
  repeat match goal with
  | |- context [Z.add ?a ?b] =>
      match a with Z0 => idtac | Zpos _ => idtac end;
      match b with Z0 => idtac | Zpos _ => idtac end;
      let v := eval vm_compute in (Z.add a b) in change (Z.add a b) with v
  | |- context [Z.sub ?a ?b] =>
      match a with Z0 => idtac | Zpos _ => idtac end;
      match b with Z0 => idtac | Zpos _ => idtac end;
      let v := eval vm_compute in (Z.sub a b) in change (Z.sub a b) with v
  | |- context [wrap32 ?a] =>
      match a with Z0 => idtac | Zpos _ => idtac end;
      let v := eval vm_compute in (wrap32 a) in change (wrap32 a) with v
  | |- context [Z.shiftl 1 ?a] =>
      match a with Z0 => idtac | Zpos _ => idtac end;
      let v := eval vm_compute in (Z.shiftl 1 a) in change (Z.shiftl 1 a) with v
  | |- context [Z.pow 2 ?b] =>
      match b with Z0 => idtac | Zpos _ => idtac end;
      let v := eval vm_compute in (Z.pow 2 b) in change (Z.pow 2 b) with v
  | H : context [Z.pow 2 ?b] |- _ =>
      match b with Z0 => idtac | Zpos _ => idtac end;
      let v := eval vm_compute in (Z.pow 2 b) in change (Z.pow 2 b) with v in H
  end.

Ltac pow2 := numerals.

Section Iteration.

Lemma store_length (l : list Z) (i : nat) (v : Z) : length (store l i v) = length l.
Proof.
  revert i; induction l as [|h t IH]; intros [|j]; simpl; auto.
Qed.

Lemma init_inv : inv init.
Proof. split; cbn; auto; lia. Qed.

Lemma classify_mid (byte : Z) (st : enc) :
  inv st ->
  exists st2,
    classify byte st = Some st2 /\ mid st2 /\
    pos st2 = pos st /\ output st2 = output st /\
    prev0 st2 = prev0 st /\ prev1 st2 = prev1 st.
Proof.
  intros [Hb Hc Hq Ha]. unfold classify.
  destruct ((byte =? prev0 st) || (byte =? prev1 st)).
  - eexists. split; [reflexivity|]. split; [|cbn; auto].
    pose proof (repeat_code (control st) (byte =? prev1 st)) as R.
    cbv zeta in R.
    split; cbn [bits literals_size literals control]; try rewrite R; clear R;
      try assumption;
      destruct Hb as [E|[E|[E|E]]]; rewrite E in *; pow2;
      try (rewrite !wrap32_small by (pow2; destruct (byte =? prev1 st); lia));
      try (pow2; destruct (byte =? prev1 st); lia).
  - destruct (find_option (opts (to_u8 (prev1 st))) byte 0) as [i|] eqn:F.
    + apply find_option_range in F. rewrite opts_length in F.
      eexists. split; [reflexivity|]. split; [|cbn; auto].
      split; cbn [bits literals_size literals control];
        try rewrite predicted_code by lia; try assumption;
        destruct Hb as [E|[E|[E|E]]]; rewrite E in *; pow2;
        try (rewrite !wrap32_small by (pow2; lia));
        try (pow2; lia).
    + assert ((literals_size st <? LITERALS_CAP)%nat = true) as ->.
      { apply Nat.ltb_lt. unfold LITERALS_CAP. lia. }
      eexists. split; [reflexivity|]. split; [|cbn; auto].
      split; cbn [bits literals_size literals control];
        try rewrite literal_code; try (rewrite store_length; assumption);
        destruct Hb as [E|[E|[E|E]]]; rewrite E in *; pow2;
        try (rewrite !wrap32_small by (pow2; lia));
        try (pow2; lia).
Qed.

Lemma framed_nil : framed [].
Proof. exists []. split; [reflexivity|constructor]. Qed.

Lemma framed_snoc (out : list Z) (ctl : Z) (lits : list Z) :
  framed out -> record_ok (ctl, lits) -> framed (out ++ [ctl] ++ lits).
Proof.
  intros [recs [-> F]] Hr. exists (recs ++ [(ctl, lits)]). split.
  - unfold frame. rewrite flat_map_app. simpl. now rewrite app_nil_r.
  - apply Forall_app. split; [assumption|]. now constructor.
Qed.

(** What the flush does to a state that the classifier left. *)
Lemma flush_spec (st : enc) :
  mid st -> framed (output st) ->
  match flush st with
  | inl st3 =>
      inv st3 /\ framed (output st3) /\ pos st3 = pos st /\
      prev0 st3 = prev0 st /\ prev1 st3 = prev1 st /\
      (bits st3 = bits st \/ bits st3 = bits st - 8)
  | inr out =>
      out = output st /\
      (bits st = 8 /\ control st = 1 \/ bits st = 10 /\ control st / 4 = 1)
  end.
Proof.
  intros [Hb Hc Hq Hp Ha] Hf. unfold flush.
  assert (forall n, (length (firstn n (literals st)) <= n)%nat) as L
    by (intros; apply firstn_le_length).
  destruct Hb as [E|[E|[E|[E|E]]]]; rewrite E in *; numerals;
    cbn [Z.leb Z.compare Pos.compare Pos.compare_cont CompOpp];
    try (repeat split; auto; try rewrite E; numerals; lia).
  - rewrite Z.shiftr_0_r, to_u8_small by lia.
    destruct (control st =? 1) eqn:C.
    + apply Z.eqb_eq in C. auto.
    + apply Z.eqb_neq in C. cbn [bits control literals_size literals pos prev0 prev1 output].
      rewrite Z.land_0_r.
      split; [constructor; cbn [bits control literals_size literals];
              numerals; auto; lia|].
      split; [|repeat (split; [reflexivity|]); lia].
      apply framed_snoc; [assumption|].
      specialize (L (literals_size st)).
      unfold record_ok; cbn [fst snd]. lia.
  - rewrite Z.shiftr_div_pow2 by lia. numerals.
    assert (0 <= control st / 4 < 256) as B
      by (split; [apply Z.div_pos; lia | apply Z.div_lt_upper_bound; lia]).
    rewrite to_u8_small by assumption.
    destruct (control st / 4 =? 1) eqn:C.
    + apply Z.eqb_eq in C. auto.
    + apply Z.eqb_neq in C. cbn [bits control literals_size literals pos prev0 prev1 output].
      change 3 with (Z.ones 2). rewrite Z.land_ones by lia. numerals.
      pose proof (Z.mod_pos_bound (control st) 4 eq_refl).
      split; [constructor; cbn [bits control literals_size literals];
              numerals; auto; lia|].
      split; [|repeat (split; [reflexivity|]); lia].
      apply framed_snoc; [assumption|].
      specialize (L (literals_size st)).
      unfold record_ok; cbn [fst snd]. lia.
Qed.

(** One iteration from a state that satisfies the invariant. *)
Lemma body_spec (source : list byte) (size : nat) (st : enc) :
  inv st -> framed (output st) -> (pos st <= size)%nat ->
  match body source size st with
  | Break => pos st = size /\ bits st = 0
  | Continue st' =>
      inv st' /\ framed (output st') /\ (pos st' <= size)%nat /\
      (if (pos st =? size)%nat
       then pos st' = pos st /\ prev1 st' = 0 /\ bits st <> 0
       else pos st' = S (pos st))
  | Stop (ControlAssert out) => out = output st
  | Stop _ => False
  end.
Proof.
  intros Hi Hf Hp. unfold body, next_byte.
  destruct (pos st =? size)%nat eqn:P.
  - apply Nat.eqb_eq in P.
    destruct (bits st =? 0) eqn:B.
    + apply Z.eqb_eq in B. auto.
    + apply Z.eqb_neq in B.
      destruct (classify_mid 0 st Hi) as (st2 & -> & M & P2 & O2 & _ & _).
      assert (mid (shift_prev 0 st2)) as M' by (destruct M; split; assumption).
      pose proof (flush_spec _ M') as F. cbn [shift_prev output] in F.
      rewrite O2 in F. specialize (F Hf).
      destruct (flush (shift_prev 0 st2)) as [st3|out].
      * destruct F as (I3 & F3 & P3 & _ & E1 & _). cbn in P3, E1.
        split; [assumption|]. split; [assumption|].
        split; [lia|]. split; [congruence|]. split; assumption.
      * apply F.
  - apply Nat.eqb_neq in P.
    set (byte := u8 (nth (pos st) source x00)).
    set (st1 := mkEnc (S (pos st)) _ _ _ _ _ _ _).
    assert (inv st1) as I1 by (destruct Hi; split; assumption).
    destruct (classify_mid byte st1 I1) as (st2 & -> & M & P2 & O2 & _ & _).
    assert (mid (shift_prev byte st2)) as M' by (destruct M; split; assumption).
    pose proof (flush_spec _ M') as F. cbn [shift_prev output] in F.
    rewrite O2 in F. specialize (F Hf).
    destruct (flush (shift_prev byte st2)) as [st3|out].
    + destruct F as (I3 & F3 & P3 & _). cbn in P3.
      split; [assumption|]. split; [assumption|].
      rewrite P3, P2. cbn [pos st1]. split; [lia|reflexivity].
    + apply F.
Qed.

(** An implicit zero after a zero: a repeat of [prev1], two more bits, and
    the flush (when it comes) cannot hit the reserved byte. *)
Lemma body_tail_zero (source : list byte) (size : nat) (st : enc) :
  inv st -> pos st = size -> prev1 st = 0 -> bits st <> 0 ->
  exists st',
    body source size st = Continue st' /\
    bits st' = (if bits st =? 6 then 0 else bits st + 2).
Proof.
  intros [Hb Hc Hq Ha] P E1 B. unfold body, next_byte.
  rewrite P, Nat.eqb_refl.
  apply Z.eqb_neq in B. rewrite B. apply Z.eqb_neq in B.
  unfold classify. rewrite E1, Z.eqb_refl, orb_true_r.
  pose proof (repeat_code (control st) true) as R. cbv zeta iota in R.
  rewrite R. clear R.
  unfold flush, shift_prev. cbn [bits control literals_size literals output].
  destruct Hb as [E|[E|[E|E]]]; rewrite E in *; try lia; numerals;
    rewrite wrap32_small by (numerals; lia);
    cbn [Z.leb Z.compare Pos.compare Pos.compare_cont CompOpp Z.eqb Pos.eqb];
    try (eexists; split; reflexivity).
  rewrite Z.shiftr_0_r, to_u8_small by lia.
  assert ((4 * control st + 3 =? 1) = false) as -> by (apply Z.eqb_neq; lia).
  eexists; split; reflexivity.
Qed.

End Iteration.

(** ** The whole loop *)

Section Loop.

Variable source : list byte.
Variable size : nat.

(** Shape of every result of the loop. *)
Lemma loop_result (fuel : nat) (st : enc) :
  inv st -> framed (output st) -> (pos st <= size)%nat ->
  match loop fuel source size st with
  | Finished out => exists recs, out = frame recs ++ [1] /\ Forall record_ok recs
  | ControlAssert out => framed out
  | OutOfFuel => True
  | _ => False
  end.
Proof.
  revert st. induction fuel as [|f IH]; intros st Hi Hf Hp; [exact I|].
  cbn [loop]. pose proof (body_spec source size st Hi Hf Hp) as S.
  destruct (body source size st) as [|st'|o].
  - destruct Hf as [recs [-> F]]. now exists recs.
  - destruct S as (I' & F' & P' & _). now apply IH.
  - destruct o; try contradiction. now subst.
Qed.

(** Once the pending bits are on their way out with [prev1 = 0], the loop
    needs at most three more implicit zeros. *)
Lemma loop_tail_zero (fuel : nat) (st : enc) :
  inv st -> framed (output st) -> pos st = size -> prev1 st = 0 ->
  (Z.of_nat fuel > (if bits st =? 0 then 0 else (8 - bits st) / 2)) ->
  exists out, loop fuel source size st = Finished out.
Proof.
  revert st. induction fuel as [|f IH]; intros st Hi Hf P E1 Hfuel.
  { destruct Hi as [Hb _ _ _].
    destruct Hb as [E|[E|[E|E]]]; rewrite E in Hfuel; cbn in Hfuel; lia. }
  cbn [loop].
  destruct (Z.eq_dec (bits st) 0) as [B|B].
  - unfold body, next_byte. rewrite P, Nat.eqb_refl, B. cbn. eauto.
  - destruct (body_tail_zero source size st Hi P E1 B) as (st' & Eb & B').
    pose proof (body_spec source size st Hi Hf ltac:(lia)) as S.
    rewrite Eb in *. rewrite P, Nat.eqb_refl in S.
    destruct S as (I' & F' & _ & P' & E1' & _).
    apply IH; [assumption|assumption|congruence|assumption|].
    rewrite B'. destruct Hi as [Hb _ _ _].
    destruct Hb as [E|[E|[E|E]]]; rewrite E in *; cbn in *; lia.
Qed.

(** The loop never runs out of the iterations [fuel_for] grants. *)
Lemma loop_total (fuel : nat) (st : enc) :
  inv st -> framed (output st) -> (pos st <= size)%nat ->
  (size - pos st + 5 <= fuel)%nat ->
  loop fuel source size st <> OutOfFuel.
Proof.
  revert st. induction fuel as [|f IH]; intros st Hi Hf Hp Hfuel; [lia|].
  cbn [loop]. pose proof (body_spec source size st Hi Hf Hp) as S.
  destruct (body source size st) as [|st'|o] eqn:Eb.
  - discriminate.
  - destruct S as (I' & F' & P' & S).
    destruct (pos st =? size)%nat eqn:P.
    + apply Nat.eqb_eq in P. destruct S as (Ps & E1 & _).
      destruct (loop_tail_zero f st' I' F' ltac:(congruence) E1) as [out ->];
        [|discriminate].
      destruct I' as [Hb _ _ _].
      destruct Hb as [E|[E|[E|E]]]; rewrite E; cbn; lia.
    + apply IH; auto. lia.
  - destruct o; try contradiction. discriminate.
Qed.


End Loop.

(** ** The trimmer *)

Section Trimmer.

Lemma u8_zero (b : byte) : u8 b = 0 <-> b = x00.
Proof.
  split; [|intros ->; reflexivity].
  destruct b; intros H; try reflexivity; discriminate H.
Qed.

Lemma u8_eqb_zero (b : byte) : (u8 b =? 0) = true <-> b = x00.
Proof. rewrite Z.eqb_eq. apply u8_zero. Qed.

Lemma nth_all_zero (s : list byte) (n : nat) :
  Forall (fun b => b = x00) s -> nth n s x00 = x00.
Proof.
  intros H. revert n. induction H as [|b t -> _ IH]; intros [|n]; simpl; auto.
Qed.

Lemma trim_size_all_zero (s : list byte) (n : nat) :
  Forall (fun b => b = x00) s -> trim_size s n = 0%nat.
Proof.
  intros H. induction n as [|n IH]; simpl; [reflexivity|].
  now rewrite (nth_all_zero s n H).
Qed.

Lemma last_firstn_S (s : list byte) (n : nat) :
  (n < length s)%nat -> last (firstn (S n) s) x00 = nth n s x00.
Proof.
  revert n. induction s as [|a t IH]; intros n H; simpl in H; [lia|].
  destruct n as [|n].
  - reflexivity.
  - specialize (IH n ltac:(lia)).
    change (firstn (S (S n)) (a :: t)) with (a :: firstn (S n) t).
    change (nth (S n) (a :: t) x00) with (nth n t x00).
    rewrite <- IH. destruct t as [|a' t']; [simpl in H; lia|reflexivity].
Qed.

Lemma trim_size_trimmed (s : list byte) (n : nat) :
  (n <= length s)%nat -> trimmed (firstn (trim_size s n) s).
Proof.
  induction n as [|n IH]; intros H; simpl.
  - now left.
  - destruct (u8 (nth n s x00) =? 0) eqn:E.
    + apply IH. lia.
    + right. rewrite last_firstn_S by lia.
      intros Z0. apply u8_eqb_zero in Z0. congruence.
Qed.

Lemma nth_last (s : list byte) :
  s <> [] -> nth (length s - 1) s x00 = last s x00.
Proof.
  induction s as [|a t IH]; intros H; [contradiction|].
  destruct t as [|a' t']; [reflexivity|].
  change (last (a :: a' :: t') x00) with (last (a' :: t') x00).
  rewrite <- IH by discriminate. simpl. now rewrite Nat.sub_0_r.
Qed.

Lemma trim_trimmed (s : list byte) : trimmed s -> trim s = s.
Proof.
  intros [->|H]; [reflexivity|]. unfold trim.
  destruct s as [|a t] eqn:Es; [reflexivity|]. rewrite <- Es in *.
  assert (s <> []) as Hne by (rewrite Es; discriminate).
  assert (length s = S (length s - 1)) as L
    by (rewrite Es; simpl; lia).
  rewrite L at 1. cbn [trim_size].
  rewrite nth_last by assumption.
  assert ((u8 (last s x00) =? 0) = false) as ->.
  { apply not_true_is_false. rewrite u8_eqb_zero. exact H. }
  rewrite <- L. apply firstn_all.
Qed.

End Trimmer.

(** ** Properties of the program *)

Section Program.

(** Every run of [main] returns, and in one of two ways: the records and the
    end byte, or the assertion on the control byte after whole records. *)
Lemma main_outcome (file : list byte) :
  (exists recs, main file = Finished (frame recs ++ [1]) /\ Forall record_ok recs)
  \/ (exists out, main file = ControlAssert out /\ framed out).
Proof.
  unfold main.
  assert ((length (fread file) <=? SOURCE_CAP)%nat = true) as ->
    by (apply Nat.leb_le, firstn_le_length).
  unfold encode, fuel_for.
  set (source := fread file). set (size := trim_size source (length source)).
  pose proof (loop_result source size (size + 5) init init_inv framed_nil
                ltac:(cbn; lia)) as R.
  pose proof (loop_total source size (size + 5) init init_inv framed_nil
                ltac:(cbn; lia) ltac:(cbn; lia)) as T.
  destruct (loop (size + 5) source size init) as [out| |out|out|];
    try contradiction.
  - left. destruct R as [recs [-> F]]. eauto.
  - right. eauto.
Qed.

Lemma reachable_inv (source : list byte) (size : nat) (st : enc) :
  reachable source size st ->
  inv st /\ framed (output st) /\ (pos st <= size)%nat.
Proof.
  induction 1 as [|st st' _ (Hi & Hf & Hp) Hb].
  - split; [apply init_inv|]. split; [apply framed_nil|]. cbn. lia.
  - pose proof (body_spec source size st Hi Hf Hp) as S.
    rewrite Hb in S. destruct S as (I' & F' & P' & _). auto.
Qed.

End Program.

(** ** The output, flush by flush *)

Section Flushes.

(** A flush that lets the run continue appends its record, and the control
    byte of that record is not the reserved one. *)
Lemma flush_appends (st st3 : enc) :
  flush st = inl st3 ->
  output st3 = output st ++ frame (flushed st) /\
  Forall (fun r => fst r <> 1 /\ 0 <= fst r < 256) (flushed st).
Proof.
  unfold flush, flushed. destruct (8 <=? bits st).
  - destruct (to_u8 (Z.shiftr (control st) (bits st - 8)) =? 1) eqn:E;
      [discriminate|].
    intros H. injection H as <-. cbn [output frame flat_map record_bytes fst snd].
    rewrite app_nil_r. split; [reflexivity|].
    constructor; [|constructor]. cbn [fst]. apply Z.eqb_neq in E.
    split; [exact E|]. apply Z.mod_pos_bound. reflexivity.
  - intros H. injection H as <-. cbn [frame flat_map].
    rewrite app_nil_r. split; [reflexivity|constructor].
Qed.

Lemma flushed_queue (st : enc) :
  Forall (fun r => length (snd r) <= literals_size st)%nat (flushed st).
Proof.
  unfold flushed. destruct (8 <=? bits st); constructor; [|constructor].
  cbn [snd]. apply firstn_le_length.
Qed.

(** An iteration that lets the run continue appends the record it wrote. *)
Lemma body_appends (source : list byte) (size : nat) (st st' : enc) :
  inv st ->
  body source size st = Continue st' ->
  output st' = output st ++ frame (written_by source size st) /\
  Forall record_ok (written_by source size st).
Proof.
  intros Hi. unfold body, written_by.
  destruct (next_byte source size st) as [[byte st1]|] eqn:N; [|discriminate].
  assert (inv st1 /\ output st1 = output st) as [I1 O1].
  { unfold next_byte in N. destruct (pos st =? size)%nat.
    - destruct (bits st =? 0); [discriminate|]. injection N as _ <-. auto.
    - injection N as _ <-. split; [destruct Hi; split; assumption|reflexivity]. }
  destruct (classify_mid byte st1 I1) as (st2 & C & M & _ & O2 & _).
  rewrite C.
  destruct (flush (shift_prev byte st2)) as [st3|] eqn:F; [|discriminate].
  intros H. injection H as <-.
  destruct (flush_appends _ _ F) as [O3 R3].
  pose proof (flushed_queue (shift_prev byte st2)) as Q3.
  split.
  - rewrite O3. cbn [shift_prev output]. now rewrite O2, O1.
  - rewrite Forall_forall in *. intros r Hr.
    specialize (R3 r Hr). specialize (Q3 r Hr). cbn [shift_prev literals_size] in Q3.
    destruct M as [_ _ Mq _ _]. unfold record_ok. split; [apply R3|].
    split; [apply R3|lia].
Qed.

Lemma frame_app (r1 r2 : list (Z * list Z)) :
  frame (r1 ++ r2) = frame r1 ++ frame r2.
Proof. apply flat_map_app. Qed.

(** The output of a completed loop: what was there, the records of the
    flushes, the end byte. *)
Lemma loop_flushes (source : list byte) (size fuel : nat) (st : enc)
    (out : list Z) :
  inv st -> framed (output st) -> (pos st <= size)%nat ->
  loop fuel source size st = Finished out ->
  out = output st ++ frame (flushes fuel source size st) ++ [1] /\
  Forall record_ok (flushes fuel source size st).
Proof.
  revert st. induction fuel as [|f IH]; intros st Hi Hf Hp H; [discriminate|].
  cbn [loop flushes] in *.
  pose proof (body_spec source size st Hi Hf Hp) as B.
  pose proof (body_appends source size st) as A.
  destruct (body source size st) as [|st'|o].
  - injection H as <-. split; [reflexivity|constructor].
  - destruct B as (I' & F' & P' & _).
    destruct (A st' Hi eq_refl) as [O' R'].
    destruct (IH st' I' F' P' H) as [-> R].
    split.
    + rewrite O', frame_app, <- !app_assoc. reflexivity.
    + apply Forall_app. split; assumption.
  - destruct o; try contradiction; discriminate.
Qed.

Lemma encode_flushes (source : list byte) (size : nat) (out : list Z) :
  encode source size = Finished out ->
  last out 0 = 1 /\
  out = frame (flushes (fuel_for size) source size init) ++ [1] /\
  Forall record_ok (flushes (fuel_for size) source size init).
Proof.
  unfold encode. intros H.
  destruct (loop_flushes source size _ init out init_inv framed_nil
              (Nat.le_0_l _) H) as [E R].
  change (output init) with (@nil Z) in E. rewrite app_nil_l in E.
  split; [rewrite E; apply last_last|]. split; assumption.
Qed.

End Flushes.

(** ** Concrete runs and the remaining properties *)

Section Runs.

(** Witness of C6 on the state whose two slots both hold [5]. *)
Lemma repeat_code_selection_witness :
  let st := mkEnc 0 (repeat 0 LITERALS_CAP) 0 2 1 5 5 [] in
  (5 = prev0 st \/ 5 = prev1 st) /\
  exists st',
    classify 5 st = Some st' /\
    bits st' = wrap32 (bits st + 2) /\
    literals_size st' = literals_size st /\
    literals st' = literals st /\
    (5 = prev1 st -> control st' = wrap32 (4 * control st + 3)) /\
    (5 <> prev1 st -> control st' = wrap32 (4 * control st + 2)).
Proof.
  cbv zeta. split.
  - left. reflexivity.
  - apply repeat_code_selection. left. reflexivity.
Defined.

(** Witness of C7: [prev1 = 2] predicts [6] first. *)
Lemma predicted_index0_witness :
  let st := mkEnc 0 (repeat 0 LITERALS_CAP) 0 2 1 16 2 [] in
  exists st',
    classify 6 st = Some st' /\
    find_option (opts (to_u8 (prev1 st))) 6 0 = Some 0 /\
    control st' = wrap32 (16 * control st + 4 + 0) /\
    bits st' = wrap32 (bits st + 4) /\
    literals_size st' = literals_size st /\
    literals st' = literals st.
Proof.
  cbv zeta. apply predicted_index0; cbn [prev0 prev1].
  - lia.
  - right. lia.
  - discriminate.
  - discriminate.
  - reflexivity.
Defined.

(** C1: the input [01 10 02 06] is three literals and then a predicted byte;
    the ten pending bits are [00 00 00 01 00], the control byte to flush is the
    reserved [0x01], and the assertion on it fails before anything is
    written. *)
Theorem reserved_control_byte_reached :
  main [x01; x10; x02; x06] = ControlAssert [].
Proof. vm_compute. reflexivity. Qed.

(** C2: with [prev1] not set, [opts] receives the slot converted to
    [uint8_t], that is [0xFF]; the byte [0xFF] is then found as candidate 0 and
    never queued as a literal.  The output for the input [FF] is
    [43 00 01]. *)
Theorem unset_slot_predicts_ff :
  find_option (opts (to_u8 (prev1 init))) (u8 xff) 0 = Some 0 /\
  main [xff] = Finished [0x43; 0x00; 0x01].
Proof. split; vm_compute; reflexivity. Qed.

(** C3, as the code has it: [fread] loads at most [SOURCE_CAP] bytes, so the
    assertion on [size] holds for every file, and the run on a longer file is
    the run on its first [SOURCE_CAP] bytes. *)
Theorem main_reads_prefix (file : list byte) :
  main file = main (firstn SOURCE_CAP file) /\ main file <> SizeAssert.
Proof.
  split.
  - unfold main, fread. now rewrite firstn_firstn, Nat.min_id.
  - destruct (main_outcome file) as [(recs & -> & _)|(out & -> & _)]; discriminate.
Qed.

(** C3 fails as stated: a file of [SOURCE_CAP + 1] bytes is encoded to the
    end, from its first [SOURCE_CAP] bytes. *)
Lemma oversized_input_not_aborted :
  (SOURCE_CAP <? length oversized)%nat = true /\
  main oversized = Finished [0x17; 0x41; 0x01] /\
  aborted (main oversized) = false.
Proof. repeat split; vm_compute; reflexivity. Qed.

(** C4: on the input [10 20 01] the loop does not reach zero pending bits.
    After three literals the first implicit zero is candidate 1 of [0x01]; the
    ten pending bits are [00 00 00 01 01], the control byte to flush is the
    reserved [0x01], and the run stops on the assertion with no end byte
    written. *)
Theorem tail_flush_hits_assertion :
  main [x10; x20; x01] = ControlAssert [] /\
  aborted (main [x10; x20; x01]) = true.
Proof. split; vm_compute; reflexivity. Qed.

(** C5, as the code has it: when the run completes, the output is exactly
    the records written by the flushes, in the order of the flushes, each a
    control byte other than [0x01] followed by the at most four literals
    queued at that flush, and then the end byte [0x01], which is the last byte
    of the output. *)
Theorem finished_output_framed (file : list byte) (out : list Z) :
  main file = Finished out ->
  last out 0 = 1 /\
  out = frame (main_flushes file) ++ [1] /\
  Forall record_ok (main_flushes file).
Proof.
  unfold main, main_flushes.
  assert ((length (fread file) <=? SOURCE_CAP)%nat = true) as ->
    by (apply Nat.leb_le, firstn_le_length).
  apply encode_flushes.
Qed.

Lemma finished_output_framed_witness :
  main [x41; x41; x41] = Finished [0x3D; 0x41; 0x7F; 0x01] /\
  main_flushes [x41; x41; x41] = [(0x3D, [0x41]); (0x7F, [])] /\
  last [0x3D; 0x41; 0x7F; 0x01] 0 = 1 /\
  [0x3D; 0x41; 0x7F; 0x01] = frame (main_flushes [x41; x41; x41]) ++ [1] /\
  Forall record_ok (main_flushes [x41; x41; x41]).
Proof.
  split; [vm_compute; reflexivity|]. split; [vm_compute; reflexivity|].
  apply (finished_output_framed [x41; x41; x41]). vm_compute. reflexivity.
Defined.

(** C5 fails as stated: four literals fill a control byte exactly, the last
    of them is [0x01], and the output ends with two [0x01] bytes. *)
Lemma literal_one_before_terminator :
  main [x10; x20; x40; x01] = Finished [0x00; 0x10; 0x20; 0x40; 0x01; 0x01].
Proof. vm_compute. reflexivity. Qed.

(** C8: on a file of zero bytes only (the empty file included) the trimmer
    leaves nothing, of the file and of the buffer read from it, and the output
    is the single byte [0x01]. *)
Theorem all_zero_input (file : list byte) :
  Forall (fun b => b = x00) file ->
  trim file = [] /\ trim (fread file) = [] /\ main file = Finished [1].
Proof.
  intros H.
  assert (Forall (fun b => b = x00) (fread file)) as H'.
  { unfold fread. rewrite <- (firstn_skipn SOURCE_CAP file) in H.
    apply Forall_app in H. exact (proj1 H). }
  unfold trim, main. rewrite !trim_size_all_zero by assumption.
  repeat split.
  assert ((length (fread file) <=? SOURCE_CAP)%nat = true) as ->
    by (apply Nat.leb_le, firstn_le_length).
  reflexivity.
Qed.

Lemma all_zero_input_witness :
  trim [x00; x00; x00] = [] /\ trim (fread [x00; x00; x00]) = [] /\
  main [x00; x00; x00] = Finished [1].
Proof. apply all_zero_input. repeat constructor. Defined.

(** C9: a sequence that is empty or ends in a non-zero byte is returned
    unchanged by the trimmer, whatever its length; the result of the trimmer
    is such a sequence, so trimming twice is trimming once. *)
Theorem trim_idempotent (s : list byte) :
  (trimmed s -> trim s = s) /\ trimmed (trim s) /\ trim (trim s) = trim s.
Proof.
  assert (trimmed (trim s)) as T by (apply trim_size_trimmed; lia).
  split; [apply trim_trimmed|]. split; [exact T|]. now apply trim_trimmed.
Qed.

Lemma trim_idempotent_witness :
  trimmed [x01; x00; x02] /\ trim [x01; x00; x02] = [x01; x00; x02].
Proof.
  assert (trimmed [x01; x00; x02]) as T by (right; discriminate).
  split; [exact T|]. exact (proj1 (trim_idempotent [x01; x00; x02]) T).
Defined.

(** C10: at the head of every iteration the queue holds at most three
    literals; the classifier never writes outside the eight cells of
    [literals] and leaves at most four literals queued for the flush. *)
Theorem literal_queue_bounded (source : list byte) (size : nat) (st : enc) :
  reachable source size st ->
  (literals_size st <= 3)%nat /\
  length (literals st) = LITERALS_CAP /\
  (forall byte, exists st2,
      classify byte st = Some st2 /\ (literals_size st2 <= 4)%nat) /\
  (forall out, body source size st <> Stop (LiteralsOverflow out)).
Proof.
  intros R. apply reachable_inv in R. destruct R as (Hi & Hf & Hp).
  split; [destruct Hi as [Hb _ Hq _]; lia|].
  split; [apply Hi|]. split.
  - intros byte.
    destruct (classify_mid byte st Hi) as (st2 & E & M & _).
    exists st2. split; [exact E|apply M].
  - intros out E. pose proof (body_spec source size st Hi Hf Hp) as S.
    rewrite E in S. exact S.
Qed.

Lemma literal_queue_bounded_witness :
  exists st,
    body [x10; x20] 2 init = Continue st /\
    (literals_size st <= 3)%nat /\
    length (literals st) = LITERALS_CAP /\
    (forall byte, exists st2,
        classify byte st = Some st2 /\ (literals_size st2 <= 4)%nat) /\
    (forall out, body [x10; x20] 2 st <> Stop (LiteralsOverflow out)).
Proof.
  eexists. split; [vm_compute; reflexivity|].
  apply literal_queue_bounded.
  eapply reach_step; [apply reach_init|vm_compute; reflexivity].
Defined.

End Runs.

(** ** Further properties: [write_all] *)

Section WriteAll.

Lemma firstn_next_chunk (buf : list Z) (count w r : nat) :
  (w + r <= count)%nat ->
  firstn w buf ++ firstn r (skipn w (firstn count buf)) = firstn (w + r) buf.
Proof.
  intros H.
  rewrite firstn_skipn_comm, firstn_firstn.
  replace (Nat.min (w + r) count) with (w + r)%nat by lia.
  rewrite <- (firstn_skipn w (firstn (w + r) buf)) at 2.
  rewrite firstn_firstn. replace (Nat.min w (w + r)) with w by lia.
  reflexivity.
Qed.

Lemma write_all_loop_spec (fuel : nat) (buf : list Z) (count w : nat)
    (s0 s : stream) :
  (count <= length buf)%nat -> (w <= count)%nat -> (count - w < fuel)%nat ->
  taken s = taken s0 ++ firstn w buf ->
  match write_all_loop fuel buf count w s with
  | Returned s' => taken s' = taken s0 ++ firstn count buf
  | ExitFailure s' =>
      exists n, (n < count)%nat /\ taken s' = taken s0 ++ firstn n buf
  | NoFuel => False
  end.
Proof.
  revert w s. induction fuel as [|f IH]; intros w s Hc Hw Hf Ht; [lia|].
  cbn [write_all_loop].
  destruct (w <? count)%nat eqn:E.
  - apply Nat.ltb_lt in E. unfold fwrite.
    destruct (accepts s) as [|k rest].
    + cbn. exists w. split; [lia|exact Ht].
    + cbv zeta.
      set (data := skipn w (firstn count buf)).
      assert (length data = (count - w)%nat) as L
        by (unfold data; rewrite length_skipn, length_firstn; lia).
      destruct (Nat.min k (length data) <=? 0)%nat eqn:R.
      * apply Nat.leb_le in R. exists w. split; [lia|].
        cbn [taken]. replace (Nat.min k (length data)) with 0%nat by lia.
        cbn [firstn]. now rewrite app_nil_r.
      * apply Nat.leb_gt in R. apply IH; try lia.
        cbn [taken]. rewrite Ht, <- app_assoc. f_equal.
        apply firstn_next_chunk. lia.
  - apply Nat.ltb_ge in E. replace count with w by lia. exact Ht.
Qed.

(** X6: [write_all] never reports success after a partial write.  When it
    returns, the stream has taken exactly the [count] bytes of [buf], in
    order, however [fwrite] split them; when it exits, a proper prefix. *)
Theorem write_all_complete (s : stream) (buf : list Z) (count : nat) :
  (count <= length buf)%nat ->
  match write_all s buf count with
  | Returned s' => taken s' = taken s ++ firstn count buf
  | ExitFailure s' =>
      exists n, (n < count)%nat /\ taken s' = taken s ++ firstn n buf
  | NoFuel => False
  end.
Proof.
  intros H. apply write_all_loop_spec; try lia.
  cbn [firstn]. now rewrite app_nil_r.
Qed.

Lemma write_all_complete_witness :
  let s := mkStream [0x3D] [2; 0; 5]%nat in
  let buf := [0x41; 0x42; 0x43; 0; 0; 0; 0; 0] in
  (3 <= length buf)%nat /\
  match write_all s buf 3 with
  | Returned s' => taken s' = taken s ++ firstn 3 buf
  | ExitFailure s' =>
      exists n, (n < 3)%nat /\ taken s' = taken s ++ firstn n buf
  | NoFuel => False
  end.
Proof.
  cbv zeta. split; [cbn; lia|].
  apply (write_all_complete (mkStream [0x3D] [2; 0; 5]%nat)). cbn. lia.
Defined.

Lemma write_all_loop_progress (fuel : nat) (buf : list Z) (count w : nat)
    (s : stream) :
  (count <= length buf)%nat -> (w <= count)%nat -> (count - w < fuel)%nat ->
  (count - w <= length (accepts s))%nat ->
  Forall (fun k => (1 <= k)%nat) (accepts s) ->
  exists s', write_all_loop fuel buf count w s = Returned s'.
Proof.
  revert w s. induction fuel as [|f IH]; intros w s Hc Hw Hf Hl Hp; [lia|].
  cbn [write_all_loop].
  destruct (w <? count)%nat eqn:E; [|eauto].
  apply Nat.ltb_lt in E. unfold fwrite.
  destruct (accepts s) as [|k rest] eqn:A; [cbn in Hl; lia|].
  cbv zeta.
  set (data := skipn w (firstn count buf)).
  assert (length data = (count - w)%nat) as L
    by (unfold data; rewrite length_skipn, length_firstn; lia).
  inversion Hp as [|k' rest' Hk Hrest]; subst.
  assert ((Nat.min k (length data) <=? 0)%nat = false) as ->
    by (apply Nat.leb_gt; lia).
  apply IH; cbn [accepts]; try lia; [cbn in Hl; lia|assumption].
Qed.

(** X7: if every call of [fwrite] accepts at least one byte (and the stream
    is described for [count] calls), [write_all] returns; for [count = 0] it
    returns without calling [fwrite]. *)
Theorem write_all_returns (s : stream) (buf : list Z) (count : nat) :
  (count <= length buf)%nat ->
  (count <= length (accepts s))%nat ->
  Forall (fun k => (1 <= k)%nat) (accepts s) ->
  exists s',
    write_all s buf count = Returned s' /\
    taken s' = taken s ++ firstn count buf /\
    (count = 0%nat -> s' = s).
Proof.
  intros Hc Hl Hp.
  destruct (write_all_loop_progress (S count) buf count 0 s) as [s' E];
    try lia; try assumption.
  exists s'. split; [exact E|].
  pose proof (write_all_complete s buf count Hc) as W.
  unfold write_all in W. rewrite E in W. split; [exact W|].
  intros ->. cbn in E. now injection E as <-.
Qed.

Lemma write_all_returns_witness :
  exists s',
    write_all (mkStream [] [1; 1; 4]%nat) [7; 8; 9; 0] 3 = Returned s' /\
    taken s' = [] ++ firstn 3 [7; 8; 9; 0] /\
    (3%nat = 0%nat -> s' = mkStream [] [1; 1; 4]%nat).
Proof.
  apply (write_all_returns (mkStream [] [1; 1; 4]%nat) [7; 8; 9; 0] 3).
  - cbn. lia.
  - cbn. lia.
  - repeat constructor.
Defined.

End WriteAll.

(** ** Further properties: what the outcome depends on *)

Section Dependence.

Lemma classify_pos (byte : Z) (st st2 : enc) :
  classify byte st = Some st2 -> pos st2 = pos st /\ output st2 = output st.
Proof.
  unfold classify. intros H.
  destruct ((byte =? prev0 st) || (byte =? prev1 st));
    [|destruct (find_option _ _ _);
      [|destruct (literals_size st <? LITERALS_CAP)%nat; [|discriminate]]];
    injection H as <-; split; reflexivity.
Qed.

Lemma flush_pos (st st3 : enc) : flush st = inl st3 -> pos st3 = pos st.
Proof.
  unfold flush. intros H.
  destruct (8 <=? bits st); [destruct (_ =? 1); [discriminate|]|];
    injection H as <-; reflexivity.
Qed.

Lemma body_pos (source : list byte) (size : nat) (st st' : enc) :
  body source size st = Continue st' ->
  pos st' = if (pos st =? size)%nat then pos st else S (pos st).
Proof.
  unfold body, next_byte. intros H.
  destruct (pos st =? size)%nat.
  - destruct (bits st =? 0); [discriminate|].
    destruct (classify 0 st) as [st2|] eqn:C; [|discriminate].
    destruct (flush (shift_prev 0 st2)) as [st3|] eqn:F; [|discriminate].
    injection H as <-. apply flush_pos in F. apply classify_pos in C.
    cbn in F. destruct C. congruence.
  - destruct (classify _ _) as [st2|] eqn:C; [|discriminate].
    destruct (flush (shift_prev _ st2)) as [st3|] eqn:F; [|discriminate].
    injection H as <-. apply flush_pos in F. apply classify_pos in C.
    cbn in F, C. destruct C. congruence.
Qed.

(** The loop reads [source] below [size] only. *)
Lemma loop_ext (s1 s2 : list byte) (size fuel : nat) (st : enc) :
  (forall i, (i < size)%nat -> nth i s1 x00 = nth i s2 x00) ->
  (pos st <= size)%nat ->
  loop fuel s1 size st = loop fuel s2 size st.
Proof.
  intros Hs. revert st. induction fuel as [|f IH]; intros st Hp; [reflexivity|].
  cbn [loop].
  assert (body s1 size st = body s2 size st) as E.
  { unfold body, next_byte. destruct (pos st =? size)%nat eqn:P; [reflexivity|].
    apply Nat.eqb_neq in P. now rewrite Hs by lia. }
  rewrite E. destruct (body s2 size st) as [|st'|o] eqn:B; try reflexivity.
  apply IH. apply body_pos in B. rewrite B.
  destruct (pos st =? size)%nat eqn:P; [lia|]. apply Nat.eqb_neq in P. lia.
Qed.

Lemma trim_size_le (s : list byte) (n : nat) : (trim_size s n <= n)%nat.
Proof.
  induction n as [|n IH]; cbn [trim_size]; [lia|].
  destruct (_ =? 0); lia.
Qed.

Lemma trim_size_ext (s1 s2 : list byte) (n : nat) :
  (forall i, (i < n)%nat -> nth i s1 x00 = nth i s2 x00) ->
  trim_size s1 n = trim_size s2 n.
Proof.
  induction n as [|n IH]; intros H; cbn [trim_size]; [reflexivity|].
  rewrite (H n) by lia. rewrite IH by (intros; apply H; lia). reflexivity.
Qed.

Lemma trim_length (s : list byte) : length (trim s) = trim_size s (length s).
Proof.
  unfold trim. rewrite length_firstn.
  pose proof (trim_size_le s (length s)). lia.
Qed.

Lemma trim_size_fixed (s : list byte) :
  trimmed s -> trim_size s (length s) = length s.
Proof.
  intros H. rewrite <- trim_length. now rewrite trim_trimmed.
Qed.

(** [main] on a buffer that fits and is already trimmed. *)
Lemma main_trimmed (s : list byte) :
  (length s <= SOURCE_CAP)%nat -> trimmed s -> main s = encode s (length s).
Proof.
  intros L T. unfold main, fread. rewrite firstn_all2 by exact L.
  assert ((length s <=? SOURCE_CAP)%nat = true) as -> by now apply Nat.leb_le.
  now rewrite trim_size_fixed.
Qed.

Lemma main_as_encode (file : list byte) :
  main file = encode (trim (fread file)) (length (trim (fread file))).
Proof.
  unfold main at 1.
  assert ((length (fread file) <=? SOURCE_CAP)%nat = true) as ->
    by (apply Nat.leb_le, firstn_le_length).
  rewrite trim_length. unfold encode. apply loop_ext; [|apply Nat.le_0_l].
  intros i Hi. unfold trim. rewrite nth_firstn.
  apply Nat.ltb_lt in Hi. now rewrite Hi.
Qed.

Lemma trim_fits (file : list byte) :
  (length (trim (fread file)) <= SOURCE_CAP)%nat.
Proof.
  rewrite trim_length. unfold fread. generalize SOURCE_CAP as cap. intros cap.
  pose proof (trim_size_le (firstn cap file) (length (firstn cap file))).
  pose proof (firstn_le_length cap file). lia.
Qed.

Lemma main_trim (file : list byte) : main (trim (fread file)) = main file.
Proof.
  rewrite main_trimmed.
  - symmetry. apply main_as_encode.
  - apply trim_fits.
  - apply trim_size_trimmed. lia.
Qed.

Lemma trim_size_app_zeros (s : list byte) (k : nat) :
  trim_size (s ++ repeat x00 k) (length s + k) = trim_size s (length s).
Proof.
  induction k as [|k IH].
  - rewrite Nat.add_0_r. apply trim_size_ext. intros i Hi. now apply app_nth1.
  - replace (length s + S k)%nat with (S (length s + k)) by lia.
    cbn [trim_size].
    rewrite app_nth2 by lia. rewrite nth_repeat. cbn [u8 Byte.to_N Z.of_N Z.eqb].
    rewrite <- IH. apply trim_size_ext. intros i Hi.
    destruct (Nat.lt_ge_cases i (length s)) as [Lt|Ge].
    + now rewrite !app_nth1.
    + rewrite !app_nth2 by lia. now rewrite !nth_repeat.
Qed.

Lemma trim_app_zeros (s : list byte) (k : nat) :
  trim (s ++ repeat x00 k) = trim s.
Proof.
  unfold trim. rewrite length_app, repeat_length, trim_size_app_zeros.
  rewrite firstn_app.
  pose proof (trim_size_le s (length s)).
  replace (trim_size s (length s) - length s)%nat with 0%nat by lia.
  cbn [firstn]. apply app_nil_r.
Qed.

Lemma firstn_repeat_zeros (n k : nat) :
  firstn n (repeat x00 k) = repeat x00 (Nat.min n k).
Proof.
  revert k. induction n as [|n IH]; intros [|k]; cbn; try reflexivity.
  now rewrite IH.
Qed.

(** X3: the outcome is that of the encoding loop over the trimmed buffer;
    running the program on the trimmed buffer itself changes nothing. *)
Theorem outcome_of_trimmed_buffer (file : list byte) :
  main file = encode (trim (fread file)) (length (trim (fread file))) /\
  main (trim (fread file)) = main file.
Proof. split; [apply main_as_encode|apply main_trim]. Qed.

(** X4: zero bytes appended to the input file never change the outcome. *)
Theorem appended_zeros_ignored (file : list byte) (k : nat) :
  main (file ++ repeat x00 k) = main file.
Proof.
  rewrite <- (main_trim (file ++ repeat x00 k)), <- (main_trim file).
  f_equal. unfold fread. rewrite firstn_app, firstn_repeat_zeros.
  apply trim_app_zeros.
Qed.

End Dependence.

(** ** Further properties: one iteration, event by event *)

Section Events.

Lemma firstn_store (l : list Z) (i : nat) (v : Z) :
  (i < length l)%nat -> firstn (S i) (store l i v) = firstn i l ++ [v].
Proof.
  revert i. induction l as [|h t IH]; intros i H; cbn in H; [lia|].
  destruct i as [|i]; [reflexivity|].
  cbn [store]. change (firstn (S (S i)) (h :: store t i v))
    with (h :: firstn (S i) (store t i v)).
  rewrite IH by lia. reflexivity.
Qed.

Lemma find_option_sound (options : list Z) (byte i j : Z) :
  find_option options byte i = Some j ->
  nth (Z.to_nat (j - i)) options (-1) = byte.
Proof.
  revert i. induction options as [|o rest IH]; intros i H; cbn in H.
  - discriminate.
  - destruct (o =? byte) eqn:E.
    + injection H as <-. rewrite Z.sub_diag. cbn. now apply Z.eqb_eq.
    + pose proof (find_option_range _ _ _ _ H) as R.
      apply IH in H.
      replace (Z.to_nat (j - i)) with (S (Z.to_nat (j - (i + 1)))) by lia.
      exact H.
Qed.

(** The classifier as an update of counters: the event's bits are appended
    to the register, its literal to the queue. *)
Lemma classify_event (byte : Z) (st : enc) :
  inv st ->
  exists st2,
    classify byte st = Some st2 /\
    bits st2 = bits st + code_bits (event_of byte st) /\
    control st2 =
      control st * 2 ^ code_bits (event_of byte st) + code (event_of byte st) /\
    queue st2 = queue st ++ lit_of (event_of byte st) byte /\
    literals_size st2 =
      (literals_size st + length (lit_of (event_of byte st) byte))%nat /\
    output st2 = output st /\ pos st2 = pos st /\
    prev0 st2 = prev0 st /\ prev1 st2 = prev1 st.
Proof.
  intros [Hb Hc Hq Ha]. unfold classify, event_of, queue.
  destruct ((byte =? prev0 st) || (byte =? prev1 st)).
  - eexists. split; [reflexivity|].
    pose proof (repeat_code (control st) (byte =? prev1 st)) as R.
    cbv zeta in R.
    cbn [bits literals_size literals control output pos prev0 prev1
         code_bits code lit_of length]. rewrite R. clear R.
    rewrite app_nil_r, Nat.add_0_r.
    repeat (split; [|try reflexivity]);
      destruct Hb as [E|[E|[E|E]]]; rewrite E in *; numerals;
      rewrite ?wrap32_small by (numerals; destruct (byte =? prev1 st); lia);
      try reflexivity; lia.
  - destruct (find_option (opts (to_u8 (prev1 st))) byte 0) as [i|] eqn:F.
    + apply find_option_range in F. rewrite opts_length in F.
      eexists. split; [reflexivity|].
      cbn [bits literals_size literals control output pos prev0 prev1
           code_bits code lit_of length].
      rewrite predicted_code by lia. rewrite app_nil_r, Nat.add_0_r.
      repeat (split; [|try reflexivity]);
        destruct Hb as [E|[E|[E|E]]]; rewrite E in *; numerals;
        rewrite ?wrap32_small by (numerals; lia);
        try reflexivity; lia.
    + assert ((literals_size st <? LITERALS_CAP)%nat = true) as ->.
      { apply Nat.ltb_lt. unfold LITERALS_CAP. lia. }
      eexists. split; [reflexivity|].
      cbn [bits literals_size literals control output pos prev0 prev1
           code_bits code lit_of length].
      rewrite literal_code.
      rewrite firstn_store by (rewrite Ha; unfold LITERALS_CAP; lia).
      repeat (split; [|try reflexivity]);
        destruct Hb as [E|[E|[E|E]]]; rewrite E in *; numerals;
        rewrite ?wrap32_small by (numerals; lia);
        try reflexivity; lia.
Qed.

(** The flush in numbers. *)
Lemma flush_values (st : enc) :
  mid st ->
  (bits st < 8 -> flush st = inl st) /\
  (8 <= bits st ->
   let c := control st / 2 ^ (bits st - 8) in
   0 <= c < 256 /\
   (c = 1 -> flush st = inr (output st)) /\
   (c <> 1 ->
    exists st3,
      flush st = inl st3 /\
      bits st3 = bits st - 8 /\
      control st3 = control st mod 2 ^ (bits st - 8) /\
      literals_size st3 = 0%nat /\
      output st3 = output st ++ [c] ++ queue st /\
      prev0 st3 = prev0 st /\ prev1 st3 = prev1 st /\ pos st3 = pos st)).
Proof.
  intros [Hb Hc Hq Hp Ha]. unfold flush, queue. cbv zeta.
  destruct Hb as [E|[E|[E|[E|E]]]]; rewrite E in *; numerals;
    cbn [Z.leb Z.compare Pos.compare Pos.compare_cont CompOpp];
    (split; [intros; try reflexivity; lia|intros H8; try lia]).
  - rewrite Z.shiftr_0_r, to_u8_small, Z.div_1_r by lia.
    split; [lia|]. split.
    + intros ->. reflexivity.
    + intros N. apply Z.eqb_neq in N. rewrite N.
      eexists. split; [reflexivity|].
      cbn [bits control literals_size output prev0 prev1 pos].
      rewrite Z.land_0_r, Z.mod_1_r. repeat split; reflexivity.
  - rewrite Z.shiftr_div_pow2 by lia. numerals.
    assert (0 <= control st / 4 < 256) as B
      by (split; [apply Z.div_pos; lia | apply Z.div_lt_upper_bound; lia]).
    rewrite to_u8_small by assumption.
    split; [lia|]. split.
    + intros ->. reflexivity.
    + intros N. apply Z.eqb_neq in N. rewrite N.
      eexists. split; [reflexivity|].
      cbn [bits control literals_size output prev0 prev1 pos].
      change 3 with (Z.ones 2). rewrite Z.land_ones by lia. numerals.
      repeat split; reflexivity.
Qed.

(** One iteration after the byte is chosen: the event's bits and literal are
    added; with eight bits or more the top eight leave as a control byte,
    followed by the queue. *)
Lemma advance_spec (byte : Z) (st : enc) :
  inv st -> framed (output st) ->
  let e := event_of byte st in
  let mb := bits st + code_bits e in
  let mc := control st * 2 ^ code_bits e + code e in
  let mq := queue st ++ lit_of e byte in
  match advance byte st with
  | Continue st' =>
      inv st' /\ framed (output st') /\ pos st' = pos st /\
      prev0 st' = prev1 st /\ prev1 st' = byte /\
      ((mb < 8 /\ bits st' = mb /\ control st' = mc /\ queue st' = mq /\
        literals_size st' = length mq /\ output st' = output st) \/
       (8 <= mb /\ bits st' = mb - 8 /\ control st' = mc mod 2 ^ (mb - 8) /\
        queue st' = [] /\ literals_size st' = 0%nat /\
        output st' = output st ++ [mc / 2 ^ (mb - 8)] ++ mq /\
        mc / 2 ^ (mb - 8) <> 1 /\ 0 <= mc / 2 ^ (mb - 8) < 256))
  | Stop (ControlAssert o) => o = output st /\ 8 <= mb /\ mc / 2 ^ (mb - 8) = 1
  | _ => False
  end.
Proof.
  intros Hi Hf. cbv zeta. unfold advance.
  destruct (classify_event byte st Hi)
    as (st2 & C & B2 & C2 & Q2 & L2 & O2 & P2 & V0 & V1).
  destruct (classify_mid byte st Hi) as (st2' & C' & M & _).
  rewrite C in C'. injection C' as <-. rewrite C.
  set (m := shift_prev byte st2).
  assert (mid m) as Mm by (destruct M; split; assumption).
  assert (framed (output m)) as Fm by (cbn; now rewrite O2).
  pose proof (flush_spec m Mm Fm) as S.
  destruct (flush_values m Mm) as [Lo Hi8].
  assert (queue m = queue st2) as Qm by reflexivity.
  assert (length (queue st) = literals_size st) as Lq.
  { unfold queue. rewrite length_firstn. destruct Hi as [Hb _ Hq Ha].
    rewrite Ha. unfold LITERALS_CAP. lia. }
  change (bits m) with (bits st2) in *.
  change (control m) with (control st2) in *.
  change (output m) with (output st2) in *.
  change (queue m) with (queue st2) in *.
  change (pos m) with (pos st2) in *.
  change (prev0 m) with (prev1 st2) in *.
  change (prev1 m) with byte in *.
  destruct (Z.lt_ge_cases (bits st2) 8) as [Lt|Ge].
  - rewrite (Lo Lt) in *. destruct S as (I & F & _).
    change (pos m) with (pos st2). change (prev0 m) with (prev1 st2).
    change (prev1 m) with byte. change (bits m) with (bits st2).
    change (control m) with (control st2). change (output m) with (output st2).
    change (queue m) with (queue st2).
    change (literals_size m) with (literals_size st2).
    split; [exact I|]. split; [exact F|].
    split; [exact P2|]. split; [exact V1|]. split; [reflexivity|].
    left. rewrite <- B2, <- C2, <- Q2, Q2 at 1.
    rewrite length_app, Lq, <- L2, <- Q2.
    repeat split; try assumption; lia.
  - destruct (Hi8 Ge) as (Rng & One & Other).
    destruct (Z.eq_dec (control st2 / 2 ^ (bits st2 - 8)) 1) as [E1|N1].
    + rewrite (One E1) in *. split; [exact O2|]. rewrite <- B2, <- C2. auto.
    + destruct (Other N1) as (st3 & F3 & B3 & C3 & L3 & O3 & W0 & W1 & P3).
      rewrite F3 in *. destruct S as (I & F & _).
      split; [exact I|]. split; [exact F|].
      split; [congruence|]. split; [congruence|]. split; [exact W1|].
      right. rewrite <- B2, <- C2, <- Q2, <- O2.
      split; [exact Ge|]. split; [exact B3|]. split; [exact C3|].
      split; [unfold queue; now rewrite L3|]. split; [exact L3|].
      split; [exact O3|]. split; assumption.
Qed.

(** The loop body is [advance] on the padded input. *)
Lemma body_advance (source : list byte) (size : nat) (st : enc) :
  (pos st <= size)%nat ->
  body source size st =
  if (pos st =? size)%nat && (bits st =? 0) then Break
  else advance (padded source size (pos st))
               (set_pos (if (pos st =? size)%nat then pos st else S (pos st)) st).
Proof.
  intros Hp. unfold body, next_byte, padded, advance.
  destruct (pos st =? size)%nat eqn:P.
  - apply Nat.eqb_eq in P.
    assert ((pos st <? size)%nat = false) as -> by (apply Nat.ltb_ge; lia).
    destruct (bits st =? 0); [reflexivity|].
    destruct st; reflexivity.
  - apply Nat.eqb_neq in P. cbn [andb].
    assert ((pos st <? size)%nat = true) as -> by (apply Nat.ltb_lt; lia).
    reflexivity.
Qed.

End Events.

(** ** Further properties: size of the output *)

Section Size.

Variable source : list byte.
Variable size : nat.

Lemma queue_length (st : enc) : inv st -> length (queue st) = literals_size st.
Proof.
  intros [Hb _ Hq Ha]. unfold queue. rewrite length_firstn, Ha.
  unfold LITERALS_CAP. lia.
Qed.

Lemma event_cost_bounds (e : event) (byte : Z) :
  2 <= code_bits e + 8 * Z.of_nat (length (lit_of e byte)) <= 10.
Proof. destruct e; cbn; lia. Qed.

(** Every iteration accounts for the bits of its event and for its literal;
    the flush moves bits and queue to the output and loses nothing. *)
Lemma advance_cost (byte : Z) (st st' : enc) :
  inv st -> framed (output st) ->
  advance byte st = Continue st' ->
  cost st' = cost st + code_bits (event_of byte st)
             + 8 * Z.of_nat (length (lit_of (event_of byte st) byte)).
Proof.
  intros Hi Hf E. pose proof (advance_spec byte st Hi Hf) as HS.
  cbv zeta in HS. rewrite E in HS.
  pose proof (queue_length st Hi) as Lq.
  destruct HS as (_ & _ & _ & _ & _ & [HS|HS]); unfold cost.
  - destruct HS as (_ & -> & _ & _ & -> & ->).
    rewrite length_app, Lq. lia.
  - destruct HS as (_ & -> & _ & _ & -> & -> & _).
    rewrite !length_app, Lq. cbn [length]. lia.
Qed.

Lemma body_cost (st st' : enc) :
  inv st -> framed (output st) -> (pos st <= size)%nat ->
  body source size st = Continue st' ->
  let e := event_of (padded source size (pos st)) st in
  cost st' = cost st + code_bits e
             + 8 * Z.of_nat (length (lit_of e (padded source size (pos st)))).
Proof.
  intros Hi Hf Hp E. rewrite body_advance in E by assumption.
  destruct ((pos st =? size)%nat && (bits st =? 0)); [discriminate|].
  apply advance_cost in E; [exact E| |exact Hf].
  destruct Hi; split; assumption.
Qed.

(** Upper allowance for what the rest of the run can still add. *)
Lemma loop_cost_upper (fuel : nat) (st : enc) (out : list Z) :
  inv st -> framed (output st) -> (pos st <= size)%nat ->
  loop fuel source size st = Finished out ->
  8 * (Z.of_nat (length out) - 1) <=
  cost st +
  (if (pos st =? size)%nat
   then if bits st =? 0 then 0 else if prev1 st =? 0 then 8 - bits st else 16
   else 10 * Z.of_nat (size - pos st) + 16).
Proof.
  revert st. induction fuel as [|f IH]; intros st Hi Hf Hp H; [discriminate|].
  cbn [loop] in H.
  pose proof (body_spec source size st Hi Hf Hp) as HS.
  pose proof (body_cost st) as C.
  destruct (body source size st) as [|st'|o] eqn:B.
  - destruct HS as [P Z0]. injection H as <-.
    apply Nat.eqb_eq in P. rewrite P, Z0. cbn [Z.eqb].
    destruct Hi as [_ _ Hq _]. unfold cost.
    rewrite length_app. cbn [length]. lia.
  - destruct HS as (I' & F' & P' & HS).
    specialize (C st' Hi Hf Hp eq_refl). cbv zeta in C.
    specialize (IH st' I' F' P' H).
    pose proof (event_cost_bounds
                  (event_of (padded source size (pos st)) st)
                  (padded source size (pos st))) as Bd.
    destruct (pos st =? size)%nat eqn:P.
    + destruct HS as (Ps & E1 & Bn).
      apply Nat.eqb_eq in P. rewrite Ps in IH.
      assert ((pos st =? size)%nat = true) as Pt by now apply Nat.eqb_eq.
      rewrite Pt, E1 in IH. cbn [Z.eqb] in IH.
      apply Z.eqb_neq in Bn. rewrite Bn. apply Z.eqb_neq in Bn.
      destruct I' as [Hb' _ _ _].
      destruct (prev1 st =? 0) eqn:V.
      * apply Z.eqb_eq in V.
        assert (event_of (padded source size (pos st)) st = Rep true) as Ev.
        { unfold padded.
          assert ((pos st <? size)%nat = false) as -> by (apply Nat.ltb_ge; lia).
          unfold event_of. rewrite V. cbn [Z.eqb]. now rewrite orb_true_r. }
        rewrite Ev in C. cbn [code_bits lit_of length] in C.
        pose proof (advance_spec 0 st Hi Hf) as A. cbv zeta in A.
        rewrite body_advance in B by assumption.
        rewrite Pt in B.
        assert ((bits st =? 0) = false) as Bf by now apply Z.eqb_neq.
        rewrite Bf in B. cbn [andb] in B.
        unfold padded in B.
        assert ((pos st <? size)%nat = false) as Pf by (apply Nat.ltb_ge; lia).
        rewrite Pf in B.
        assert (set_pos (pos st) st = st) as Sp by (destruct st; reflexivity).
        rewrite Sp in B. rewrite B in A.
        unfold padded in Ev. rewrite Pf in Ev. rewrite Ev in A.
        cbn [code_bits] in A.
        destruct A as (_ & _ & _ & _ & _ & [A|A]).
        -- destruct A as (Lt & Eb & _).
           destruct (bits st' =? 0) eqn:Z0;
             [apply Z.eqb_eq in Z0|apply Z.eqb_neq in Z0]; lia.
        -- destruct A as (Ge & Eb & _).
           destruct Hi as [Hb _ _ _].
           destruct (bits st' =? 0) eqn:Z0;
             [apply Z.eqb_eq in Z0|apply Z.eqb_neq in Z0]; lia.
      * destruct (bits st' =? 0) eqn:Z0;
          [apply Z.eqb_eq in Z0|apply Z.eqb_neq in Z0]; lia.
    + apply Nat.eqb_neq in P. rewrite HS in IH.
      destruct (Datatypes.S (pos st) =? size)%nat eqn:P2.
      * apply Nat.eqb_eq in P2. destruct I' as [Hb' _ _ _].
        destruct (bits st' =? 0); [lia|].
        destruct (prev1 st' =? 0); lia.
      * apply Nat.eqb_neq in P2. lia.
  - destruct o; try contradiction; discriminate.
Qed.

Lemma loop_cost_lower (fuel : nat) (st : enc) (out : list Z) :
  inv st -> framed (output st) -> (pos st <= size)%nat ->
  loop fuel source size st = Finished out ->
  cost st + 2 * Z.of_nat (size - pos st) <= 8 * (Z.of_nat (length out) - 1).
Proof.
  revert st. induction fuel as [|f IH]; intros st Hi Hf Hp H; [discriminate|].
  cbn [loop] in H.
  pose proof (body_spec source size st Hi Hf Hp) as HS.
  pose proof (body_cost st) as C.
  destruct (body source size st) as [|st'|o] eqn:B.
  - destruct HS as [P Z0]. injection H as <-.
    destruct Hi as [_ _ Hq _]. unfold cost.
    rewrite length_app. cbn [length]. lia.
  - destruct HS as (I' & F' & P' & HS).
    specialize (C st' Hi Hf Hp eq_refl). cbv zeta in C.
    specialize (IH st' I' F' P' H).
    pose proof (event_cost_bounds
                  (event_of (padded source size (pos st)) st)
                  (padded source size (pos st))) as Bd.
    destruct (pos st =? size)%nat eqn:P.
    + destruct HS as (Ps & _). lia.
    + lia.
  - destruct o; try contradiction; discriminate.
Qed.

End Size.

Lemma encode_size_bounds (t : list byte) (out : list Z) :
  encode t (length t) = Finished out ->
  Z.of_nat (length t) + 4 <= 4 * Z.of_nat (length out)
  <= 5 * Z.of_nat (length t) + 12.
Proof.
  unfold encode. intros H.
  pose proof (loop_cost_upper t (length t) _ init out init_inv framed_nil
                (Nat.le_0_l _) H) as U.
  pose proof (loop_cost_lower t (length t) _ init out init_inv framed_nil
                (Nat.le_0_l _) H) as L.
  clear H. change (cost init) with 0 in U, L.
  change (pos init) with 0%nat in U, L.
  change (bits init) with 0 in U. rewrite Nat.sub_0_r in U, L.
  destruct (0 =? length t)%nat eqn:E.
  - apply Nat.eqb_eq in E. cbn [Z.eqb] in U. lia.
  - lia.
Qed.

(** X5: when the run completes, the output is never shorter than a quarter
    of the trimmed input plus one byte, and never longer than five quarters
    of it plus three bytes. *)
Theorem output_size_bounds (file : list byte) (out : list Z) :
  main file = Finished out ->
  let n := Z.of_nat (length (trim (fread file))) in
  n + 4 <= 4 * Z.of_nat (length out) <= 5 * n + 12.
Proof.
  intros H. cbv zeta. rewrite main_as_encode in H.
  exact (encode_size_bounds _ _ H).
Qed.

Lemma output_size_bounds_witness :
  main [x10; x20; x40; x01] = Finished [0x00; 0x10; 0x20; 0x40; 0x01; 0x01] /\
  let n := Z.of_nat (length (trim (fread [x10; x20; x40; x01]))) in
  n + 4 <= 4 * Z.of_nat (length [0x00; 0x10; 0x20; 0x40; 0x01; 0x01]) <= 5 * n + 12.
Proof.
  split; [vm_compute; reflexivity|].
  apply (output_size_bounds [x10; x20; x40; x01]). vm_compute. reflexivity.
Defined.

(** ** Further properties: the output determines the trimmed input *)

Section Committed.

Lemma classify_set_pos (byte : Z) (p : nat) (st : enc) :
  classify byte (set_pos p st) = option_map (set_pos p) (classify byte st).
Proof.
  unfold classify. cbn [set_pos prev0 prev1 control bits literals literals_size
                        output pos].
  destruct ((byte =? prev0 st) || (byte =? prev1 st)); [reflexivity|].
  destruct (find_option _ _ _); [reflexivity|].
  destruct (literals_size st <? LITERALS_CAP)%nat; reflexivity.
Qed.

Lemma flush_set_pos (p : nat) (st : enc) :
  flush (set_pos p st) =
  match flush st with inl s => inl (set_pos p s) | inr o => inr o end.
Proof.
  unfold flush. cbn [set_pos prev0 prev1 control bits literals literals_size
                     output pos].
  destruct (8 <=? bits st); [|reflexivity].
  destruct (_ =? 1); reflexivity.
Qed.

Lemma advance_set_pos (byte : Z) (p : nat) (st : enc) :
  advance byte (set_pos p st) = map_iter (set_pos p) (advance byte st).
Proof.
  unfold advance. rewrite classify_set_pos.
  destruct (classify byte st) as [st2|]; [|reflexivity].
  cbn [option_map].
  change (shift_prev byte (set_pos p st2)) with (set_pos p (shift_prev byte st2)).
  rewrite flush_set_pos.
  destruct (flush (shift_prev byte st2)); reflexivity.
Qed.

Lemma inv_set_pos (p : nat) (st : enc) : inv st -> inv (set_pos p st).
Proof. intros [? ? ? ?]. split; assumption. Qed.

(** The code of an event fits its number of bits. *)
Lemma event_code_range (byte : Z) (st : enc) :
  0 <= code (event_of byte st) < 2 ^ code_bits (event_of byte st).
Proof.
  unfold event_of.
  destruct ((byte =? prev0 st) || (byte =? prev1 st)).
  - destruct (byte =? prev1 st); cbn; lia.
  - destruct (find_option _ _ _) as [i|] eqn:F; [|cbn; lia].
    apply find_option_range in F. rewrite opts_length in F.
    cbn [code code_bits]. numerals. lia.
Qed.

Lemma event_of_pred_range (byte : Z) (st : enc) (i : Z) :
  event_of byte st = Pred i -> 0 <= i < 4.
Proof.
  unfold event_of.
  destruct ((byte =? prev0 st) || (byte =? prev1 st)); [discriminate|].
  destruct (find_option _ _ _) as [j|] eqn:F; [|discriminate].
  intros E. injection E as <-.
  apply find_option_range in F. rewrite opts_length in F. lia.
Qed.

(** An event other than a literal determines the byte. *)
Lemma event_of_inj (b1 b2 : Z) (st : enc) :
  event_of b1 st = event_of b2 st -> event_of b1 st <> Lit -> b1 = b2.
Proof.
  unfold event_of.
  destruct ((b1 =? prev0 st) || (b1 =? prev1 st)) eqn:H1;
    destruct ((b2 =? prev0 st) || (b2 =? prev1 st)) eqn:H2.
  - intros E _. injection E as E.
    apply orb_true_iff in H1, H2. rewrite !Z.eqb_eq in H1, H2.
    destruct (b1 =? prev1 st) eqn:P1; symmetry in E.
    + apply Z.eqb_eq in P1, E. congruence.
    + apply Z.eqb_neq in P1, E. destruct H1, H2; congruence.
  - destruct (find_option _ b2 0); discriminate.
  - destruct (find_option _ b1 0); discriminate.
  - destruct (find_option _ b1 0) as [i1|] eqn:F1;
      destruct (find_option _ b2 0) as [i2|] eqn:F2;
      intros E N; try discriminate; try contradiction.
    injection E as <-.
    apply find_option_sound in F1, F2. congruence.
Qed.

Variable source : list byte.
Variable size : nat.

(** The loop only appends to the output. *)
Lemma loop_prefix (fuel : nat) (st : enc) (out : list Z) :
  inv st -> framed (output st) -> (pos st <= size)%nat ->
  loop fuel source size st = Finished out ->
  exists r, out = output st ++ r.
Proof.
  revert st. induction fuel as [|f IH]; intros st Hi Hf Hp H; [discriminate|].
  cbn [loop] in H.
  pose proof (body_spec source size st Hi Hf Hp) as HS.
  pose proof (body_advance source size st Hp) as BA.
  destruct (body source size st) as [|st'|o] eqn:B.
  - injection H as <-. eauto.
  - destruct HS as (I' & F' & P' & _).
    destruct (IH st' I' F' P' H) as [r ->].
    destruct ((pos st =? size)%nat && (bits st =? 0)); [discriminate|].
    pose proof (advance_spec (padded source size (pos st))
                  (set_pos (if (pos st =? size)%nat then pos st else S (pos st)) st)
                  (inv_set_pos _ st Hi) Hf) as A. cbv zeta in A.
    rewrite <- BA in A.
    destruct A as (_ & _ & _ & _ & _ & [A|A]).
    + destruct A as (_ & _ & _ & _ & _ & ->). eauto.
    + destruct A as (_ & _ & _ & _ & _ & -> & _).
      cbn [set_pos output]. rewrite <- !app_assoc. eauto.
  - destruct o; try contradiction; discriminate.
Qed.

Lemma body_not_break (st : enc) :
  (pos st <= size)%nat -> bits st <> 0 -> body source size st <> Break.
Proof.
  intros Hp Hb. rewrite body_advance by assumption.
  apply Z.eqb_neq in Hb. rewrite Hb, andb_false_r.
  unfold advance. destruct (classify _ _); [|discriminate].
  destruct (flush _); discriminate.
Qed.

Lemma pow2_split (x a b : Z) :
  0 <= a -> 0 <= b -> x / 2 ^ (a + b) = x / 2 ^ a / 2 ^ b.
Proof.
  intros Ha Hb. rewrite Z.pow_add_r by assumption.
  rewrite Z.div_div; [reflexivity| |]; try apply Z.pow_nonzero;
    try apply Z.pow_pos_nonneg; lia.
Qed.

Lemma drop_code (w c k : Z) : 0 <= k -> 0 <= c < 2 ^ k -> (w * 2 ^ k + c) / 2 ^ k = w.
Proof.
  intros Hk Hc. assert (0 < 2 ^ k) by (apply Z.pow_pos_nonneg; lia).
  rewrite Z.div_add_l by lia. rewrite Z.div_small by assumption. lia.
Qed.

Lemma code_bits_pos (e : event) : 2 <= code_bits e <= 4.
Proof. destruct e; cbn; lia. Qed.

(** Pending control bits and queued literals are committed: whatever comes
    later, the next control byte starts with the pending bits and is followed
    by the queue. *)
Lemma commit (fuel : nat) (st : enc) (out : list Z) :
  inv st -> framed (output st) -> (pos st <= size)%nat ->
  loop fuel source size st = Finished out ->
  body source size st <> Break ->
  exists c r,
    out = output st ++ c :: queue st ++ r /\
    c <> 1 /\ 0 <= c < 256 /\
    c / 2 ^ (8 - bits st) = control st.
Proof.
  revert st. induction fuel as [|f IH]; intros st Hi Hf Hp H NB; [discriminate|].
  cbn [loop] in H.
  pose proof (body_spec source size st Hi Hf Hp) as HS.
  pose proof (body_advance source size st Hp) as BA.
  destruct (body source size st) as [|st'|o] eqn:B.
  - contradiction.
  - destruct HS as (I' & F' & P' & _).
    destruct ((pos st =? size)%nat && (bits st =? 0)); [discriminate|].
    set (byte := padded source size (pos st)) in *.
    pose proof (advance_spec byte
                  (set_pos (if (pos st =? size)%nat then pos st else S (pos st)) st)
                  (inv_set_pos _ st Hi) Hf) as A.
    cbv zeta in A. rewrite <- BA in A.
    change (event_of byte (set_pos _ st)) with (event_of byte st) in A.
    change (bits (set_pos _ st)) with (bits st) in A.
    change (control (set_pos _ st)) with (control st) in A.
    change (queue (set_pos _ st)) with (queue st) in A.
    change (output (set_pos _ st)) with (output st) in A.
    pose proof (event_code_range byte st) as CR.
    pose proof (code_bits_pos (event_of byte st)) as CB.
    destruct Hi as [Hb Hc _ _].
    destruct A as (_ & _ & _ & _ & _ & [A|A]).
    + destruct A as (Lt & Eb & Ec & Eq & _ & Eo).
      assert (body source size st' <> Break) as NB'
        by (apply body_not_break; [assumption|lia]).
      destruct (IH st' I' F' P' H NB') as (c & r & -> & N1 & Rc & Top).
      exists c, (lit_of (event_of byte st) byte ++ r).
      rewrite Eo, Eq, <- app_assoc. split; [reflexivity|].
      split; [exact N1|]. split; [exact Rc|].
      rewrite Eb, Ec in Top.
      replace (8 - bits st)
        with ((8 - (bits st + code_bits (event_of byte st)))
              + code_bits (event_of byte st)) by lia.
      rewrite pow2_split by lia. rewrite Top. apply drop_code; lia.
    + destruct A as (Ge & Eb & Ec & Eq & _ & Eo & N1 & Rc).
      destruct (loop_prefix f st' out I' F' P' H) as [r ->].
      eexists _, (lit_of (event_of byte st) byte ++ r).
      rewrite Eo, <- !app_assoc. cbn [app].
      split; [reflexivity|]. split; [exact N1|]. split; [exact Rc|].
      rewrite <- pow2_split by lia.
      replace (bits st + code_bits (event_of byte st) - 8 + (8 - bits st))
        with (code_bits (event_of byte st)) by lia.
      apply drop_code; lia.
  - destruct o; try contradiction; discriminate.
Qed.

(** The same for the iteration in progress: the bits of its event are
    committed too, the index of a predicted byte possibly in the control byte
    after the next one. *)
Lemma mid_commit (fuel : nat) (byte : Z) (st st' : enc) (out : list Z) :
  inv st -> framed (output st) -> (pos st <= size)%nat ->
  advance byte st = Continue st' ->
  loop fuel source size st' = Finished out ->
  let e := event_of byte st in
  let mb := bits st + code_bits e in
  let mc := control st * 2 ^ code_bits e + code e in
  exists c r,
    out = output st ++ c :: (queue st ++ lit_of e byte) ++ r /\
    (mb <= 8 -> c / 2 ^ (8 - mb) = mc) /\
    (mb = 10 -> c = mc / 4 /\ exists c' r', r = c' :: r' /\ c' / 64 = mc mod 4).
Proof.
  intros Hi Hf Hp A H. cbv zeta.
  pose proof (advance_spec byte st Hi Hf) as HS. cbv zeta in HS.
  rewrite A in HS. destruct HS as (I' & F' & P' & _ & _ & HS).
  pose proof (code_bits_pos (event_of byte st)) as CB.
  assert (pos st' <= size)%nat as Hp' by lia.
  destruct HS as [HS|HS].
  - destruct HS as (Lt & Eb & Ec & Eq & _ & Eo).
    assert (body source size st' <> Break) as NB.
    { apply body_not_break; [assumption|]. destruct Hi as [Hb _ _ _]. lia. }
    destruct (commit fuel st' out I' F' Hp' H NB) as (c & r & -> & _ & _ & Top).
    exists c, r. rewrite Eo, Eq. split; [reflexivity|].
    rewrite Eb, Ec in Top. split; [intros _; exact Top|lia].
  - destruct HS as (Ge & Eb & Ec & Eq & _ & Eo & _ & _).
    destruct Hi as [Hb _ _ _].
    assert (bits st + code_bits (event_of byte st) = 8 \/
            bits st + code_bits (event_of byte st) = 10) as [E8|E10].
    { destruct (event_of byte st); cbn [code_bits] in *; lia. }
    + destruct (loop_prefix fuel st' out I' F' Hp' H) as [r ->].
      eexists _, r. rewrite Eo, <- !app_assoc. cbn [app].
      split; [reflexivity|]. split; [|lia].
      intros _. rewrite E8. cbn. now rewrite !Z.div_1_r.
    + assert (body source size st' <> Break) as NB
        by (apply body_not_break; [assumption|lia]).
      destruct (commit fuel st' out I' F' Hp' H NB) as (c' & r' & -> & _ & _ & Top).
      eexists _, (c' :: r'). rewrite Eo, Eq, <- !app_assoc. cbn [app].
      split; [reflexivity|]. split; [lia|].
      intros _. rewrite E10 in *. split; [reflexivity|].
      exists c', r'. split; [reflexivity|].
      rewrite Eb, Ec in Top. exact Top.
Qed.

End Committed.

Section Lockstep.

Variables (s1 s2 : list byte) (n1 n2 : nat).

(** Two runs that agree so far and complete with the same output process the
    same byte next: a different event changes a committed control bit, a
    different literal a committed byte. *)
Lemma same_next_event (f1 f2 : nat) (b1 b2 : Z) (st : enc) (p1 p2 : nat)
    (t1 t2 : enc) (out : list Z) :
  inv st -> framed (output st) -> (p1 <= n1)%nat -> (p2 <= n2)%nat ->
  advance b1 (set_pos p1 st) = Continue t1 ->
  advance b2 (set_pos p2 st) = Continue t2 ->
  loop f1 s1 n1 t1 = Finished out ->
  loop f2 s2 n2 t2 = Finished out ->
  event_of b1 st = event_of b2 st /\
  lit_of (event_of b1 st) b1 = lit_of (event_of b2 st) b2.
Proof.
  intros Hi Hf Hp1 Hp2 A1 A2 L1 L2.
  pose proof (mid_commit s1 n1 f1 b1 (set_pos p1 st) t1 out
                (inv_set_pos _ _ Hi) Hf Hp1 A1 L1) as M1.
  pose proof (mid_commit s2 n2 f2 b2 (set_pos p2 st) t2 out
                (inv_set_pos _ _ Hi) Hf Hp2 A2 L2) as M2.
  cbv zeta in M1, M2.
  change (event_of b1 (set_pos p1 st)) with (event_of b1 st) in M1.
  change (event_of b2 (set_pos p2 st)) with (event_of b2 st) in M2.
  change (bits (set_pos p1 st)) with (bits st) in M1.
  change (bits (set_pos p2 st)) with (bits st) in M2.
  change (control (set_pos p1 st)) with (control st) in M1.
  change (control (set_pos p2 st)) with (control st) in M2.
  change (queue (set_pos p1 st)) with (queue st) in M1.
  change (queue (set_pos p2 st)) with (queue st) in M2.
  change (output (set_pos p1 st)) with (output st) in M1.
  change (output (set_pos p2 st)) with (output st) in M2.
  destruct M1 as (c1 & r1 & -> & T1 & U1).
  destruct M2 as (c2 & r2 & E & T2 & U2).
  apply app_inv_head in E. injection E as Ec Er. subst c2.
  rewrite <- !app_assoc in Er. apply app_inv_head in Er.
  pose proof (event_of_pred_range b1 st) as R1.
  pose proof (event_of_pred_range b2 st) as R2.
  destruct Hi as [Hb Hc _ _].
  destruct (event_of b1 st) as [h1|i1|]; destruct (event_of b2 st) as [h2|i2|];
    try specialize (R1 _ eq_refl); try specialize (R2 _ eq_refl);
    cbn [code_bits code lit_of app] in *.
  all: try (injection Er as Er0 Er1; subst).
  all: try (destruct h1); try (destruct h2).
  all: try (split; reflexivity).
  all: try (split; [|reflexivity]; f_equal).
  all: destruct Hb as [B|[B|[B|B]]]; rewrite B in *;
       revert T1 T2 U1 U2; numerals; intros T1 T2 U1 U2.
  all: try (specialize (T1 ltac:(lia))); try (specialize (T2 ltac:(lia))).
  all: try (destruct (U1 eq_refl) as (V1 & c1' & r1' & W1 & X1));
       try (destruct (U2 eq_refl) as (V2 & c2' & r2' & W2 & X2)).
  all: try (rewrite W1, W2 in Er; injection Er as Er0 Er1; subst c2').
  all: clear U1 U2.
  all: try match type of T1 with _ -> _ => clear T1 end.
  all: try match type of T2 with _ -> _ => clear T2 end.
  all: try (exfalso; Z.div_mod_to_equations; lia).
  all: Z.div_mod_to_equations; lia.
Qed.

Lemma same_next_byte (f1 f2 : nat) (b1 b2 : Z) (st : enc) (p1 p2 : nat)
    (t1 t2 : enc) (out : list Z) :
  inv st -> framed (output st) -> (p1 <= n1)%nat -> (p2 <= n2)%nat ->
  advance b1 (set_pos p1 st) = Continue t1 ->
  advance b2 (set_pos p2 st) = Continue t2 ->
  loop f1 s1 n1 t1 = Finished out ->
  loop f2 s2 n2 t2 = Finished out ->
  b1 = b2.
Proof.
  intros Hi Hf Hp1 Hp2 A1 A2 L1 L2.
  destruct (same_next_event f1 f2 b1 b2 st p1 p2 t1 t2 out
              Hi Hf Hp1 Hp2 A1 A2 L1 L2) as [Ee El].
  destruct (event_of b1 st) eqn:E1.
  - apply (event_of_inj b1 b2 st); rewrite E1; [exact Ee|discriminate].
  - apply (event_of_inj b1 b2 st); rewrite E1; [exact Ee|discriminate].
  - rewrite <- Ee in El. cbn in El. now injection El.
Qed.

Lemma advance_not_finished (byte : Z) (st : enc) :
  match advance byte st with
  | Break => False
  | Stop (Finished _) => False
  | _ => True
  end.
Proof.
  unfold advance. destruct (classify byte st); [|exact I].
  destruct (flush _); exact I.
Qed.

Lemma body_break (source : list byte) (size : nat) (st : enc) :
  (pos st <= size)%nat ->
  (pos st =? size)%nat && (bits st =? 0) = false ->
  body source size st <> Break.
Proof.
  intros Hp E. rewrite body_advance, E by assumption.
  pose proof (advance_not_finished
                (padded source size (pos st))
                (set_pos (if (pos st =? size)%nat then pos st else S (pos st)) st)) as N.
  intros B. now rewrite B in N.
Qed.

Lemma padded_past (source : list byte) (size i : nat) :
  (size <= i)%nat -> padded source size i = 0.
Proof.
  intros H. unfold padded.
  assert ((i <? size)%nat = false) as -> by (apply Nat.ltb_ge; lia).
  reflexivity.
Qed.

Lemma padded_shift (source : list byte) (size p j : nat) :
  (p <= size)%nat ->
  padded source size (p + S j) =
  padded source size ((if (p =? size)%nat then p else S p) + j).
Proof.
  intros Hp. destruct (p =? size)%nat eqn:E.
  - apply Nat.eqb_eq in E. rewrite !padded_past by lia. reflexivity.
  - f_equal. lia.
Qed.

(** A run that stops with the end byte and a run that goes on do not write
    the same output: the byte at the place of the end byte is a control byte
    in the second, and not [0x01]. *)
Lemma break_or_continue (fuel : nat) (source : list byte) (size : nat)
    (st : enc) (out : list Z) :
  inv st -> framed (output st) -> (pos st <= size)%nat ->
  loop fuel source size st = Finished out ->
  body source size st <> Break ->
  out <> output st ++ [1].
Proof.
  intros Hi Hf Hp L NB E.
  destruct (commit source size fuel st out Hi Hf Hp L NB)
    as (c & r & E' & N1 & _).
  rewrite E in E'. apply app_inv_head in E'. injection E' as E1 _.
  congruence.
Qed.

(** Two runs whose states agree (the read position apart) and that complete
    with the same output process the same bytes from there on, real or
    implicit. *)
Lemma lockstep (f1 : nat) :
  forall (f2 : nat) (st1 st2 : enc) (out : list Z),
    inv st1 -> framed (output st1) ->
    (pos st1 <= n1)%nat -> (pos st2 <= n2)%nat ->
    set_pos 0 st1 = set_pos 0 st2 ->
    loop f1 s1 n1 st1 = Finished out ->
    loop f2 s2 n2 st2 = Finished out ->
    forall i, padded s1 n1 (pos st1 + i) = padded s2 n2 (pos st2 + i).
Proof.
  induction f1 as [|f1 IH]; intros f2 st1 st2 out I1 F1 P1 P2 Core L1 L2;
    [discriminate|].
  destruct f2 as [|f2]; [discriminate|].
  assert (bits st1 = bits st2) as Eb
    by (change (bits (set_pos 0 st1) = bits (set_pos 0 st2)); now rewrite Core).
  assert (output st1 = output st2) as Eo
    by (change (output (set_pos 0 st1) = output (set_pos 0 st2)); now rewrite Core).
  assert (inv st2) as I2.
  { pose proof (inv_set_pos 0 st1 I1) as J. rewrite Core in J.
    destruct J. split; assumption. }
  assert (framed (output st2)) as F2 by now rewrite <- Eo.
  pose proof L1 as L1'. pose proof L2 as L2'.
  cbn [loop] in L1, L2.
  pose proof (body_break s1 n1 st1 P1) as NB1.
  pose proof (body_break s2 n2 st2 P2) as NB2.
  rewrite body_advance in L1, L2 by assumption.
  destruct ((pos st1 =? n1)%nat && (bits st1 =? 0)) eqn:B1;
    destruct ((pos st2 =? n2)%nat && (bits st2 =? 0)) eqn:B2.
  - apply andb_true_iff in B1, B2. destruct B1 as [B1 _], B2 as [B2 _].
    apply Nat.eqb_eq in B1, B2. intros i. rewrite !padded_past by lia.
    reflexivity.
  - exfalso. injection L1 as <-.
    apply (break_or_continue (S f2) s2 n2 st2 (output st1 ++ [1])); auto.
    now rewrite Eo.
  - exfalso. injection L2 as <-.
    apply (break_or_continue (S f1) s1 n1 st1 (output st2 ++ [1])); auto.
    now rewrite Eo.
  - clear NB1 NB2 L1' L2'.
    set (b1 := padded s1 n1 (pos st1)) in *.
    set (b2 := padded s2 n2 (pos st2)) in *.
    set (q1 := if (pos st1 =? n1)%nat then pos st1 else S (pos st1)) in *.
    set (q2 := if (pos st2 =? n2)%nat then pos st2 else S (pos st2)) in *.
    assert (q1 <= n1)%nat as Q1.
    { unfold q1. destruct (pos st1 =? n1)%nat eqn:E; [lia|].
      apply Nat.eqb_neq in E. lia. }
    assert (q2 <= n2)%nat as Q2.
    { unfold q2. destruct (pos st2 =? n2)%nat eqn:E; [lia|].
      apply Nat.eqb_neq in E. lia. }
    change (set_pos q1 st1) with (set_pos q1 (set_pos 0 st1)) in L1.
    rewrite Core in L1.
    change (set_pos q1 (set_pos 0 st2)) with (set_pos q1 st2) in L1.
    pose proof (advance_not_finished b1 (set_pos q1 st2)) as N1.
    pose proof (advance_not_finished b2 (set_pos q2 st2)) as N2.
    destruct (advance b1 (set_pos q1 st2)) as [|t1|o1] eqn:A1;
      [contradiction| |destruct o1; try discriminate; contradiction].
    destruct (advance b2 (set_pos q2 st2)) as [|t2|o2] eqn:A2;
      [contradiction| |destruct o2; try discriminate; contradiction].
    assert (b1 = b2) as Ebyte
      by (apply (same_next_byte f1 f2 b1 b2 st2 q1 q2 t1 t2 out); assumption).
    rewrite advance_set_pos in A1, A2. rewrite Ebyte in A1.
    pose proof (advance_spec b2 st2 I2 F2) as HS. cbv zeta in HS.
    destruct (advance b2 st2) as [|t|o] eqn:A; try discriminate.
    cbn [map_iter] in A1, A2. injection A1 as <-. injection A2 as <-.
    destruct HS as (It & Ft & _).
    assert (forall i, padded s1 n1 (q1 + i) = padded s2 n2 (q2 + i)) as Rest.
    { apply (IH f2 (set_pos q1 t) (set_pos q2 t) out); try assumption.
      - now apply inv_set_pos.
      - reflexivity. }
    intros [|j].
    + rewrite !Nat.add_0_r. exact Ebyte.
    + rewrite !padded_shift by assumption. apply Rest.
Qed.

End Lockstep.

Section Injective.

Lemma u8_inj (a b : byte) : u8 a = u8 b -> a = b.
Proof.
  unfold u8. intros H. apply N2Z.inj in H.
  pose proof (Byte.of_to_N a) as Ha. pose proof (Byte.of_to_N b) as Hb.
  rewrite H in Ha. congruence.
Qed.

Lemma padded_last (t : list byte) :
  trimmed t -> t <> [] -> padded t (length t) (length t - 1) <> 0.
Proof.
  intros [->|T] N; [contradiction|]. unfold padded.
  assert (0 < length t)%nat by (destruct t; [contradiction|cbn; lia]).
  assert ((length t - 1 <? length t)%nat = true) as -> by (apply Nat.ltb_lt; lia).
  rewrite nth_last by assumption. rewrite u8_zero. exact T.
Qed.

(** Trimmed sequences that read the same once padded with zeros are equal. *)
Lemma padded_inj (t1 t2 : list byte) :
  trimmed t1 -> trimmed t2 ->
  (forall i, padded t1 (length t1) i = padded t2 (length t2) i) ->
  t1 = t2.
Proof.
  intros T1 T2 H.
  assert (length t1 = length t2) as L.
  { destruct (Nat.lt_trichotomy (length t1) (length t2)) as [Lt|[E|Gt]];
      [|exact E|]; exfalso.
    - apply (padded_last t2 T2); [intros ->; cbn in Lt; lia|].
      rewrite <- H. apply padded_past. lia.
    - apply (padded_last t1 T1); [intros ->; cbn in Gt; lia|].
      rewrite H. apply padded_past. lia. }
  apply (nth_ext t1 t2 x00 x00 L). intros i Hi.
  apply u8_inj. specialize (H i). unfold padded in H.
  assert ((i <? length t1)%nat = true) as E1 by now apply Nat.ltb_lt.
  assert ((i <? length t2)%nat = true) as E2 by (apply Nat.ltb_lt; lia).
  now rewrite E1, E2 in H.
Qed.

Lemma encode_injective (t1 t2 : list byte) (out : list Z) :
  trimmed t1 -> trimmed t2 ->
  encode t1 (length t1) = Finished out ->
  encode t2 (length t2) = Finished out ->
  t1 = t2.
Proof.
  unfold encode. intros T1 T2 L1 L2.
  apply padded_inj; try assumption.
  exact (lockstep t1 t2 (length t1) (length t2) _ _ init init out
           init_inv framed_nil (Nat.le_0_l _) (Nat.le_0_l _) eq_refl L1 L2).
Qed.

(** X8: the encoding loses nothing but the trailing zeros.  Two input files
    for which the run completes with the same output have the same bytes in
    the buffer once trimmed. *)
Theorem same_output_same_input (f1 f2 : list byte) (out : list Z) :
  main f1 = Finished out -> main f2 = Finished out ->
  trim (fread f1) = trim (fread f2).
Proof.
  intros H1 H2. rewrite main_as_encode in H1, H2.
  apply (encode_injective _ _ out); try assumption;
    apply trim_size_trimmed; apply Nat.le_refl.
Qed.

Lemma same_output_same_input_witness :
  main [x41; x41; x41] = Finished [0x3D; 0x41; 0x7F; 0x01] /\
  main [x41; x41; x41; x00; x00] = Finished [0x3D; 0x41; 0x7F; 0x01] /\
  trim (fread [x41; x41; x41]) = trim (fread [x41; x41; x41; x00; x00]).
Proof.
  split; [vm_compute; reflexivity|]. split; [vm_compute; reflexivity|].
  apply (same_output_same_input _ _ [0x3D; 0x41; 0x7F; 0x01]);
    vm_compute; reflexivity.
Defined.

End Injective.

(** ** Further properties: every run returns *)

Section Returns.




(** X2: at the head of every iteration there are 0, 2, 4 or 6 pending
    control bits and the register holds nothing above them; after the
    classifier there are at most ten bits in a register below [2 ^ 10].  The
    32-bit arithmetic never wraps and the shifts by [bits - 8] and [bits] are
    by 0 or 2. *)
Theorem registers_stay_small (source : list byte) (size : nat) (st : enc) :
  reachable source size st ->
  (bits st = 0 \/ bits st = 2 \/ bits st = 4 \/ bits st = 6) /\
  0 <= control st < 2 ^ bits st /\
  (pos st <= size)%nat /\
  forall byte st2,
    classify byte st = Some st2 ->
    2 <= bits st2 <= 10 /\ 0 <= control st2 < 2 ^ bits st2 /\
    match flush (shift_prev byte st2) with
    | inl st3 => bits st3 = bits st2 \/ bits st3 = bits st2 - 8
    | inr _ => True
    end.
Proof.
  intros R. apply reachable_inv in R. destruct R as (Hi & Hf & Hp).
  split; [apply Hi|]. split; [apply Hi|]. split; [exact Hp|].
  intros byte st2 C.
  destruct (classify_mid byte st Hi) as (st2' & C' & M & _ & O2 & _).
  rewrite C in C'. injection C' as <-.
  split; [destruct M as [Mb _ _ _ _]; lia|]. split; [apply M|].
  assert (mid (shift_prev byte st2)) as M' by (destruct M; split; assumption).
  pose proof (flush_spec _ M') as F. cbn [shift_prev output] in F.
  rewrite O2 in F. specialize (F Hf).
  destruct (flush (shift_prev byte st2)); [|exact I].
  destruct F as (_ & _ & _ & _ & _ & F). exact F.
Qed.

Lemma registers_stay_small_witness :
  exists st,
    body [x10; x20] 2 init = Continue st /\
    (bits st = 0 \/ bits st = 2 \/ bits st = 4 \/ bits st = 6) /\
    0 <= control st < 2 ^ bits st /\
    (pos st <= 2)%nat /\
    forall byte st2,
      classify byte st = Some st2 ->
      2 <= bits st2 <= 10 /\ 0 <= control st2 < 2 ^ bits st2 /\
      match flush (shift_prev byte st2) with
      | inl st3 => bits st3 = bits st2 \/ bits st3 = bits st2 - 8
      | inr _ => True
      end.
Proof.
  eexists. split; [vm_compute; reflexivity|].
  apply (registers_stay_small [x10; x20] 2).
  eapply reach_step; [apply reach_init|vm_compute; reflexivity].
Defined.

End Returns.

(** ** Further properties: what the events and the output tell *)

Section Decoding.

Lemma trim_size_zero (s : list byte) (n : nat) :
  trim_size s n = 0%nat -> forall i, (i < n)%nat -> nth i s x00 = x00.
Proof.
  induction n as [|n IH]; intros H i Hi; [lia|].
  cbn [trim_size] in H.
  destruct (u8 (nth n s x00) =? 0) eqn:E; [|discriminate].
  apply u8_eqb_zero in E.
  destruct (Nat.eq_dec i n) as [->|N]; [exact E|]. apply IH; [exact H|lia].
Qed.

Lemma trim_nil_all_zero (s : list byte) :
  trim s = [] -> Forall (fun b => b = x00) s.
Proof.
  intros H. pose proof (trim_length s) as L. rewrite H in L. cbn in L.
  apply Forall_forall. intros b Hb.
  destruct (In_nth s b x00 Hb) as (i & Hi & <-).
  apply (trim_size_zero s (length s)); [now symmetry|exact Hi].
Qed.

Lemma encode_lone_terminator (t : list byte) :
  encode t (length t) = Finished [1] -> t = [].
Proof.
  unfold encode. intros H. destruct t as [|a t']; [reflexivity|]. exfalso.
  apply (break_or_continue _ _ _ init [1] init_inv framed_nil (Nat.le_0_l _) H);
    [|reflexivity].
  apply body_break; [apply Nat.le_0_l|reflexivity].
Qed.

(** X9: the output is the end byte alone only when every byte read from the
    file is zero. *)
Theorem lone_terminator_only_for_zeros (file : list byte) :
  main file = Finished [1] -> Forall (fun b => b = x00) (fread file).
Proof.
  intros H. rewrite main_as_encode in H.
  apply encode_lone_terminator in H. now apply trim_nil_all_zero.
Qed.

Lemma lone_terminator_only_for_zeros_witness :
  main [x00; x00] = Finished [1] /\
  Forall (fun b => b = x00) (fread [x00; x00]).
Proof.
  split; [vm_compute; reflexivity|].
  apply lone_terminator_only_for_zeros. vm_compute. reflexivity.
Defined.

(** X10: in a given state a repeat or a predicted event stands for one byte
    only: two bytes that the classifier answers with the same event other
    than a literal are equal, so the control bits alone tell the byte. *)
Theorem event_determines_byte (b1 b2 : Z) (st : enc) :
  event_of b1 st = event_of b2 st -> event_of b1 st <> Lit -> b1 = b2.
Proof. apply event_of_inj. Qed.

Lemma event_determines_byte_witness :
  let st := mkEnc 0 (repeat 0 LITERALS_CAP) 0 2 1 16 2 [] in
  event_of 6 st = Pred 0 /\ (6 : Z) = 6.
Proof.
  cbv zeta. split; [reflexivity|].
  apply (event_determines_byte 6 6 (mkEnc 0 (repeat 0 LITERALS_CAP) 0 2 1 16 2 []));
    [reflexivity|discriminate].
Defined.

(** The classifier writes the bits of [event_of]: the event is read off the
    same tests, so the two agree for every byte and state. *)
Lemma classify_is_event (byte : Z) (st st2 : enc) :
  inv st -> classify byte st = Some st2 ->
  bits st2 = bits st + code_bits (event_of byte st) /\
  control st2 = control st * 2 ^ code_bits (event_of byte st)
                + code (event_of byte st) /\
  queue st2 = queue st ++ lit_of (event_of byte st) byte.
Proof.
  intros Hi C.
  destruct (classify_event byte st Hi) as (st2' & C' & B & K & Q & _).
  rewrite C in C'. injection C' as <-. auto.
Qed.

(** X11: the first byte of the loop, with both slots not set, is never a
    repeat; it is a predicted byte when it is [0xFF] (index 0), [0xFE]
    (index 1) or [0x7F] (index 3), the candidates of the slot converted to
    [uint8_t], and a literal otherwise. *)
Theorem first_byte_event (b : byte) :
  event_of (u8 b) init =
  match b with
  | xff => Pred 0
  | xfe => Pred 1
  | x7f => Pred 3
  | _ => Lit
  end.
Proof. destruct b; vm_compute; reflexivity. Qed.

End Decoding.
